(** * Task manager core: validation, queries, persistence, CRUD

    A shallow embedding of the record-management core of the repository:

    - [utils/task-utils.js]      validateTask, sortTasks, filterTasks, getTaskStats
    - [utils/local-storage.js]   saveTasks, loadTasks, clearTasks,
                                 isLocalStorageAvailable, getStorageInfo
    - [hooks/use-task-manager.js] addTask, updateTask, deleteTask, toggleTask,
                                 clearAllTasks, the getters, the counters and
                                 the two effects
    - the TaskManager component  its handlers and its own sort

    JavaScript objects are finite maps from property names to values
    (stdpp's [gmap]); object spread is map union; arrays are lists, and
    references into a heap of arrays where mutation matters; a [throw] is
    the [Throw] outcome of a small error monad.  Platform functions whose
    result depends on the host (Date parsing, locale collation, the storage
    quota) are Section variables; [JSON.stringify], [JSON.parse] and
    [Array.prototype.sort] are modelled after ECMA-262. *)

From Stdlib Require Import ZArith String Ascii List Lia Permutation Sorted Floats.
From stdpp Require Import gmap strings list fin_maps sorting.

Local Open Scope string_scope.
Local Open Scope nat_scope.

(** ** JavaScript values *)

Module JS.

(** Field values of a record: [undefined], [null], booleans and strings.
    Strings are sequences of code units in the Latin-1 range, one [ascii]
    each.  Numbers and nested objects or arrays as field values are outside
    the model. *)
Inductive prim : Type :=
  | PUndefined
  | PNull
  | PBool (b : bool)
  | PStr (s : string).

#[global] Instance prim_eq_dec : EqDecision prim.
Proof. solve_decision. Defined.

(** An object with own enumerable data properties. *)
Abbreviation obj := (gmap string prim).

(** What a function of the utilities can be handed: a primitive, a record,
    or an array of records. *)
Inductive value : Type :=
  | VPrim (p : prim)
  | VObj (o : obj)
  | VArr (ts : list obj).

(** The result of a numeric expression: an integer or NaN. *)
Inductive number : Type :=
  | NaN
  | Fin (z : Z).

(** Evaluation that may throw. *)
Inductive outcome (A : Type) : Type :=
  | Ok (a : A)
  | Throw (message : string).
Arguments Ok {A} a.
Arguments Throw {A} message.

#[global] Instance outcome_ret : MRet outcome := fun A a => Ok a.
#[global] Instance outcome_bind : MBind outcome := fun A B k m =>
  match m with
  | Ok a => k a
  | Throw e => Throw e
  end.

(** [o.k]: a missing property reads as [undefined]. *)
Definition get (o : obj) (k : string) : prim := default PUndefined (o !! k).

(** Property read on an arbitrary value; primitives and arrays have none of
    the record's properties. *)
Definition field (v : value) (k : string) : prim :=
  match v with
  | VObj o => get o k
  | _ => PUndefined
  end.

(** ToBoolean. *)
Definition truthy (p : prim) : bool :=
  match p with
  | PUndefined | PNull => false
  | PBool b => b
  | PStr s => negb (String.eqb s EmptyString)
  end.

Definition truthy_value (v : value) : bool :=
  match v with
  | VPrim p => truthy p
  | VObj _ | VArr _ => true
  end.

Definition typeof (p : prim) : string :=
  match p with
  | PUndefined => "undefined"
  | PNull => "object"
  | PBool _ => "boolean"
  | PStr _ => "string"
  end.

(** [a === b]. *)
Definition strict_eq (a b : prim) : bool := bool_decide (a = b).

Definition isArray (v : value) : bool :=
  match v with
  | VArr _ => true
  | _ => false
  end.

(** [p.length]: defined on strings only; [undefined] otherwise. *)
Definition length_of (p : prim) : option nat :=
  match p with
  | PStr s => Some (String.length s)
  | _ => None
  end.

(** [x > n] where [x] is a length or [undefined] ([undefined > n] is false). *)
Definition exceeds (x : option nat) (n : nat) : bool :=
  match x with
  | Some m => n <? m
  | None => false
  end.

(** White space and line terminators of the Latin-1 range, as
    [String.prototype.trim] strips them. *)
Definition is_white_space (c : ascii) : bool :=
  let n := nat_of_ascii c in
  (n =? 9) || (n =? 10) || (n =? 11) || (n =? 12) || (n =? 13) || (n =? 32) || (n =? 160).

Fixpoint trimStart (s : string) : string :=
  match s with
  | EmptyString => EmptyString
  | String c r => if is_white_space c then trimStart r else s
  end.

Fixpoint trimEnd (s : string) : string :=
  match s with
  | EmptyString => EmptyString
  | String c r =>
      match trimEnd r with
      | EmptyString => if is_white_space c then EmptyString else String c EmptyString
      | r' => String c r'
      end
  end.

Definition trim (s : string) : string := trimEnd (trimStart s).

(** [String.prototype.toLowerCase] on Latin-1: A-Z, and the accented capitals
    0xC0-0xDE except the multiplication sign 0xD7. *)
Definition lower_char (c : ascii) : ascii :=
  let n := nat_of_ascii c in
  if ((65 <=? n) && (n <=? 90)) || ((192 <=? n) && (n <=? 222) && negb (n =? 215))
  then ascii_of_nat (n + 32) else c.

Fixpoint toLowerCase (s : string) : string :=
  match s with
  | EmptyString => EmptyString
  | String c r => String (lower_char c) (toLowerCase r)
  end.

(** [s.includes(t)]. *)
Fixpoint includes (s t : string) : bool :=
  String.prefix t s ||
  match s with
  | EmptyString => false
  | String _ r => includes r t
  end.

(** [errors.join(sep)]. *)
Fixpoint join (sep : string) (l : list string) : string :=
  match l with
  | [] => EmptyString
  | [x] => x
  | x :: r => x +:+ sep +:+ join sep r
  end.

End JS.
Import JS.

(** ** Sample data

    The records of the repository's test suites and a small host: a date
    parser that knows their dates, a collation by code unit, a store that
    takes every write. *)

Definition sample_Date_parse (s : string) : option Z :=
  if String.eqb s "2024-01-01T00:00:00.000Z" then Some 1704067200000%Z
  else if String.eqb s "2024-01-02T00:00:00.000Z" then Some 1704153600000%Z
  else if String.eqb s "2024-01-03T00:00:00.000Z" then Some 1704240000000%Z
  else if String.eqb s "2024-01-04T00:00:00.000Z" then Some 1704326400000%Z
  else None.

Fixpoint sample_localeCompare (a b : string) : Z :=
  match a, b with
  | EmptyString, EmptyString => 0
  | EmptyString, String _ _ => -1
  | String _ _, EmptyString => 1
  | String x a', String y b' =>
      if nat_of_ascii x <? nat_of_ascii y then -1
      else if nat_of_ascii y <? nat_of_ascii x then 1
      else sample_localeCompare a' b'
  end.

Definition sample_accepts (store : gmap string string) (key val : string) : bool := true.

Definition task_1 : obj :=
  {[ "id" := PStr "1"; "title" := PStr "High Priority Task";
     "description" := PStr "Important task"; "priority" := PStr "High";
     "completed" := PBool false; "createdAt" := PStr "2024-01-01T00:00:00.000Z" ]}.

Definition task_2 : obj :=
  {[ "id" := PStr "2"; "title" := PStr "Medium Priority Task";
     "description" := PStr "Normal task"; "priority" := PStr "Medium";
     "completed" := PBool true; "createdAt" := PStr "2024-01-02T00:00:00.000Z" ]}.

Definition task_3 : obj :=
  {[ "id" := PStr "3"; "title" := PStr "Low Priority Task";
     "description" := PStr "Less important task"; "priority" := PStr "Low";
     "completed" := PBool false; "createdAt" := PStr "2024-01-03T00:00:00.000Z" ]}.

Definition task_4 : obj :=
  {[ "id" := PStr "4"; "title" := PStr "Another High Priority";
     "description" := PStr "Another important task"; "priority" := PStr "High";
     "completed" := PBool true; "createdAt" := PStr "2024-01-04T00:00:00.000Z" ]}.

Definition mockTasks : list obj := [task_1; task_2; task_3; task_4].

(** [s.repeat(n)]. *)
Fixpoint repeat_string (s : string) (n : nat) : string :=
  match n with
  | 0 => EmptyString
  | S n => s +:+ repeat_string s n
  end.

(** ** utils/task-utils.js: validateTask *)

Section Platform.

(** [Date.parse]: the time value of a date string, [None] for an invalid date.
    Which strings it accepts is up to the host. *)
Variable Date_parse : string -> option Z.

(** [String.prototype.localeCompare]: negative, zero or positive. *)
Variable localeCompare : string -> string -> Z.

(** The time value of [new Date(p)]. *)
Definition new_Date (p : prim) : number :=
  match p with
  | PUndefined => NaN
  | PNull => Fin 0
  | PBool b => Fin (if b then 1 else 0)
  | PStr s => match Date_parse s with Some t => Fin t | None => NaN end
  end.

Definition isNaN (n : number) : bool :=
  match n with
  | NaN => true
  | Fin _ => false
  end.

Record validation : Type := { isValid : bool; errors : list string }.

Definition task_required := "Task object is required".
Definition title_required := "Title is required and must be a non-empty string".
Definition title_too_long := "Title must be 100 characters or less".
Definition description_not_string := "Description must be a string".
Definition description_too_long := "Description must be 500 characters or less".
Definition priority_invalid := "Priority must be High, Medium, or Low".
Definition completed_not_boolean := "Completed must be a boolean value".
Definition createdAt_invalid := "CreatedAt must be a valid date".

(** [errors.push(msg)] under a condition. *)
Definition push_if (c : bool) (msg : string) (errors : list string) : list string :=
  if c then errors ++ [msg] else errors.

(** [task.title.trim().length === 0], reached for string titles only. *)
Definition blank (title : prim) : bool :=
  match title with
  | PStr s => String.length (trim s) =? 0
  | _ => false
  end.

Definition validateTask (task : value) : validation :=
  if negb (truthy_value task) then
    {| isValid := false; errors := [task_required] |}
  else
    let title := field task "title" in
    let description := field task "description" in
    let priority := field task "priority" in
    let completed := field task "completed" in
    let createdAt := field task "createdAt" in
    let errors := [] in
    let errors :=
      push_if (negb (truthy title) || negb (String.eqb (typeof title) "string") || blank title)
        title_required errors in
    let errors :=
      push_if (truthy title && exceeds (length_of title) 100) title_too_long errors in
    let errors :=
      push_if (truthy description && negb (String.eqb (typeof description) "string"))
        description_not_string errors in
    let errors :=
      push_if (truthy description && exceeds (length_of description) 500)
        description_too_long errors in
    let errors :=
      push_if (negb (truthy priority)
               || negb (bool_decide (priority ∈ [PStr "High"; PStr "Medium"; PStr "Low"])))
        priority_invalid errors in
    let errors :=
      push_if (negb (String.eqb (typeof completed) "boolean")) completed_not_boolean errors in
    let errors :=
      push_if (truthy createdAt && isNaN (new_Date createdAt)) createdAt_invalid errors in
    {| isValid := (length errors =? 0); errors := errors |}.

(** ** hooks/use-task-manager.js *)

(** The hook's state: the collection and the error flag. *)
Record manager : Type := { tasks : list obj; error : option string }.

(** What an operation returns: [{success: true, task}] or
    [{success: false, error}]. *)
Inductive result : Type :=
  | Success (task : option obj)
  | Failure (error : string).

(** The second argument of [updateTask]: an object, or a function as
    [toggleTask] passes one. *)
Inductive updates : Type :=
  | UObj (o : obj)
  | UFun (f : obj -> obj).

(** The own enumerable properties that [{...u}] copies; a function has none. *)
Definition own_properties (u : updates) : obj :=
  match u with
  | UObj o => o
  | UFun _ => ∅
  end.

(** [{...a, ...b}]: the properties of [b] override those of [a]. *)
Definition spread (a b : obj) : obj := b ∪ a.

(** [addTask(taskData)]; [uuid] is what [uuidv4()] returns and [now] what
    [new Date().toISOString()] returns at the call. *)
Definition addTask (uuid now : string) (taskData : obj) (m : manager) : result * manager :=
  let newTask :=
    <["createdAt" := PStr now]>
      (<["completed" := PBool false]> (spread {["id" := PStr uuid]} taskData)) in
  let validation := validateTask (VObj newTask) in
  if negb (isValid validation) then
    (Failure (join ", " (errors validation)), m)
  else
    (Success (Some newTask), {| tasks := tasks m ++ [newTask]; error := None |}).

(** [prevTasks.findIndex((task) => task.id === taskId)]; [None] is -1. *)
Fixpoint findIndex (taskId : prim) (prevTasks : list obj) : option nat :=
  match prevTasks with
  | [] => None
  | task :: rest =>
      if strict_eq (get task "id") taskId then Some 0
      else S <$> findIndex taskId rest
  end.

(** [setTasks(updater)], called when React has no update of the collection
    pending, as it is when every operation is called after the render of the
    one before.  React's dispatch then runs the updater itself, at once, on
    the current collection.  What the updater returns is the collection of
    the next render.  What it throws does not reach the caller: the dispatch
    swallows it, [setTasks] returns normally, and the render that follows
    runs the updater again and throws.  The [try] of an operation never sees
    the updater throw, so that its [catch] is never entered. *)
Record dispatch : Type := {
  nextTasks : list obj;
  renderError : option string
}.

(** [returned] is what the updater returns or throws on [prevTasks]. *)
Definition setTasks (returned : outcome (list obj)) (prevTasks : list obj) : dispatch :=
  match returned with
  | Ok newTasks => {| nextTasks := newTasks; renderError := None |}
  | Throw message => {| nextTasks := prevTasks; renderError := Some message |}
  end.

(** The updater [updateTask] hands to [setTasks]: the value it leaves in
    [updatedTask], which is still [null] when the id is not found and
    already the merged record when the validation throws, and the
    collection it returns or what it throws. *)
Definition update_updater (taskId : prim) (u : updates) (prevTasks : list obj)
  : option obj * outcome (list obj) :=
  match findIndex taskId prevTasks with
  | None => (None, Throw "Task not found")
  | Some taskIndex =>
      let updatedTask := spread (default ∅ (prevTasks !! taskIndex)) (own_properties u) in
      let validation := validateTask (VObj updatedTask) in
      if negb (isValid validation) then
        (Some updatedTask, Throw (join ", " (errors validation)))
      else (Some updatedTask, Ok (<[taskIndex := updatedTask]> prevTasks))
  end.

(** [updateTask(taskId, updates)]: what the call returns and the state it
    leaves.  [setTasks] and [setError(null)] both return normally, so the
    call always answers [{success: true, task: updatedTask}]. *)
Definition updateTask (taskId : prim) (u : updates) (m : manager) : result * manager :=
  let updater := update_updater taskId u (tasks m) in
  (Success updater.1,
   {| tasks := nextTasks (setTasks updater.2 (tasks m)); error := None |}).

(** What the render that follows [updateTask(taskId, updates)] throws. *)
Definition updateTask_render (taskId : prim) (u : updates) (m : manager) : option string :=
  renderError (setTasks (update_updater taskId u (tasks m)).2 (tasks m)).

Definition delete_updater (taskId : prim) (prevTasks : list obj) : outcome (list obj) :=
  let taskExists := existsb (fun task => strict_eq (get task "id") taskId) prevTasks in
  if negb taskExists then Throw "Task not found"
  else Ok (List.filter (fun task => negb (strict_eq (get task "id") taskId)) prevTasks).

(** [deleteTask(taskId)]: the call always answers [{success: true}]. *)
Definition deleteTask (taskId : prim) (m : manager) : result * manager :=
  (Success None,
   {| tasks := nextTasks (setTasks (delete_updater taskId (tasks m)) (tasks m));
      error := None |}).

(** What the render that follows [deleteTask(taskId)] throws. *)
Definition deleteTask_render (taskId : prim) (m : manager) : option string :=
  renderError (setTasks (delete_updater taskId (tasks m)) (tasks m)).

(** [toggleTask(taskId)] passes [updateTask] a function of the previous task. *)
Definition toggleTask (taskId : prim) (m : manager) : result * manager :=
  updateTask taskId
    (UFun (fun prevTask => {["completed" := PBool (negb (truthy (get prevTask "completed")))]}))
    m.

(** [handleToggleComplete] of the TaskManager component: the sibling that
    maps the flip over the collection. *)
Definition handleToggleComplete (id : prim) (prevTasks : list obj) : list obj :=
  List.map (fun task =>
         if strict_eq (get task "id") id
         then <["completed" := PBool (negb (truthy (get task "completed")))]> task
         else task) prevTasks.

(** ** utils/task-utils.js: sortTasks *)

Definition SORT_CREATED := "created".
Definition SORT_PRIORITY := "priority".
Definition SORT_PROGRESS := "progress".
Definition SORT_TITLE := "title".
Definition ASC := "asc".
Definition DESC := "desc".

(** [PRIORITY_ORDER[p]] as an operand of a subtraction: 3, 2, 1 for the three
    own keys; any other key reads [undefined] or an inherited member, NaN as
    a number. *)
Definition PRIORITY_ORDER (p : prim) : number :=
  match p with
  | PStr s =>
      if String.eqb s "High" then Fin 3
      else if String.eqb s "Medium" then Fin 2
      else if String.eqb s "Low" then Fin 1
      else NaN
  | _ => NaN
  end.

Definition sub (a b : number) : number :=
  match a, b with
  | Fin x, Fin y => Fin (x - y)
  | _, _ => NaN
  end.

Definition neg (a : number) : number :=
  match a with
  | Fin x => Fin (- x)
  | NaN => NaN
  end.

(** [p.toLowerCase()]: a TypeError unless [p] is a string. *)
Definition toLowerCase_of (p : prim) : outcome string :=
  match p with
  | PStr s => Ok (toLowerCase s)
  | PUndefined => Throw "TypeError: Cannot read properties of undefined"
  | PNull => Throw "TypeError: Cannot read properties of null"
  | PBool _ => Throw "TypeError: toLowerCase is not a function"
  end.

(** The comparator [sortTasks] hands to [sort]. *)
Definition compareTasks (sortBy sortOrder : string) (a b : obj) : outcome number :=
  comparison ←
    (if String.eqb sortBy SORT_CREATED then
       Ok (sub (new_Date (get a "createdAt")) (new_Date (get b "createdAt")))
     else if String.eqb sortBy SORT_PRIORITY then
       Ok (sub (PRIORITY_ORDER (get a "priority")) (PRIORITY_ORDER (get b "priority")))
     else if String.eqb sortBy SORT_PROGRESS then
       Ok (sub (Fin (if truthy (get a "completed") then 1 else 0))
               (Fin (if truthy (get b "completed") then 1 else 0)))
     else if String.eqb sortBy SORT_TITLE then
       la ← toLowerCase_of (get a "title");
       lb ← toLowerCase_of (get b "title");
       Ok (Fin (localeCompare la lb))
     else Ok (Fin 0));
  Ok (if String.eqb sortOrder ASC then comparison else neg comparison).

(** What [Array.prototype.sort] makes of a comparator's result: NaN counts
    as zero. *)
Definition sort_compare (v : number) : Z :=
  match v with
  | NaN => 0
  | Fin z => z
  end.

(** [Array.prototype.sort(comparefn)].  The standard requires the sort to be
    stable and leaves the sequence of comparisons to the engine; a stable
    insertion sort stands for it.  [x] comes before the elements of [l] in
    the input and moves behind those it is strictly greater than. *)
Fixpoint sort_insert {A} (comparefn : A -> A -> outcome number) (x : A) (l : list A)
  : outcome (list A) :=
  match l with
  | [] => Ok [x]
  | y :: r =>
      v ← comparefn x y;
      if (0 <? sort_compare v)%Z then r' ← sort_insert comparefn x r; Ok (y :: r')
      else Ok (x :: l)
  end.

Fixpoint Array_sort {A} (comparefn : A -> A -> outcome number) (l : list A)
  : outcome (list A) :=
  match l with
  | [] => Ok []
  | x :: r => r' ← Array_sort comparefn r; sort_insert comparefn x r'
  end.

Definition sortTasks (tasks : value) (sortBy sortOrder : string) : outcome (list obj) :=
  match tasks with
  | VArr ts => Array_sort (compareTasks sortBy sortOrder) ts
  | _ => Ok []
  end.

(** Arrays as mutable objects: a heap of arrays by reference.  [sortTasks]
    receives a reference, copies the array it points to ([[...tasks]]),
    sorts the copy in place and returns the reference of the copy. *)
Abbreviation heap := (gmap positive (list obj)).

Definition alloc (l : list obj) (h : heap) : positive * heap :=
  let r := fresh (dom h) in (r, <[r := l]> h).

Definition sortTasks_in (h : heap) (tasks : positive) (sortBy sortOrder : string)
  : outcome positive * heap :=
  match h !! tasks with
  | None => let '(r, h') := alloc [] h in (Ok r, h')
  | Some ts =>
      let '(copy, h1) := alloc ts h in
      match sortTasks (VArr ts) sortBy sortOrder with
      | Ok sorted => (Ok copy, <[copy := sorted]> h1)
      | Throw e => (Throw e, h1)
      end
  end.

(** ** utils/task-utils.js: filterTasks *)

(** [Array.prototype.filter] with a callback that may throw. *)
Fixpoint Array_filter {A} (callback : A -> outcome bool) (l : list A) : outcome (list A) :=
  match l with
  | [] => Ok []
  | x :: r =>
      keep ← callback x;
      r' ← Array_filter callback r;
      Ok (if (keep : bool) then x :: r' else r')
  end.

(** The callback of [filterTasks]: [title] matches, or [description] is
    truthy and matches. *)
Definition matches (term : string) (task : obj) : outcome bool :=
  title ← toLowerCase_of (get task "title");
  if includes title term then Ok true
  else
    let description := get task "description" in
    if truthy description then
      d ← toLowerCase_of description; Ok (includes d term)
    else Ok false.

Definition filterTasks (tasks : value) (searchTerm : prim) : outcome value :=
  if negb (truthy searchTerm) || negb (isArray tasks) then Ok tasks
  else
    lowered ← toLowerCase_of searchTerm;
    let term := trim lowered in
    match tasks with
    | VArr ts => kept ← Array_filter (matches term) ts; Ok (VArr kept)
    | _ => Ok tasks
    end.

(** ** utils/task-utils.js: getTaskStats *)

(** The accumulator of the [reduce]. *)
Record counts : Type := {
  c_total : nat;
  c_completed : nat;
  c_pending : nat;
  c_highPriority : nat;
  c_mediumPriority : nat;
  c_lowPriority : nat
}.

Record stats : Type := {
  total : nat;
  completed : nat;
  pending : nat;
  highPriority : nat;
  mediumPriority : nat;
  lowPriority : nat;
  completionRate : float
}.

(** A count as a double. *)
Definition Number (n : nat) : float := PrimFloat.of_uint63 (Uint63.of_Z (Z.of_nat n)).

Definition inc_total (acc : counts) : counts :=
  {| c_total := S (c_total acc); c_completed := c_completed acc; c_pending := c_pending acc;
     c_highPriority := c_highPriority acc; c_mediumPriority := c_mediumPriority acc;
     c_lowPriority := c_lowPriority acc |}.

Definition inc_completed (acc : counts) : counts :=
  {| c_total := c_total acc; c_completed := S (c_completed acc); c_pending := c_pending acc;
     c_highPriority := c_highPriority acc; c_mediumPriority := c_mediumPriority acc;
     c_lowPriority := c_lowPriority acc |}.

Definition inc_pending (acc : counts) : counts :=
  {| c_total := c_total acc; c_completed := c_completed acc; c_pending := S (c_pending acc);
     c_highPriority := c_highPriority acc; c_mediumPriority := c_mediumPriority acc;
     c_lowPriority := c_lowPriority acc |}.

Definition inc_highPriority (acc : counts) : counts :=
  {| c_total := c_total acc; c_completed := c_completed acc; c_pending := c_pending acc;
     c_highPriority := S (c_highPriority acc); c_mediumPriority := c_mediumPriority acc;
     c_lowPriority := c_lowPriority acc |}.

Definition inc_mediumPriority (acc : counts) : counts :=
  {| c_total := c_total acc; c_completed := c_completed acc; c_pending := c_pending acc;
     c_highPriority := c_highPriority acc; c_mediumPriority := S (c_mediumPriority acc);
     c_lowPriority := c_lowPriority acc |}.

Definition inc_lowPriority (acc : counts) : counts :=
  {| c_total := c_total acc; c_completed := c_completed acc; c_pending := c_pending acc;
     c_highPriority := c_highPriority acc; c_mediumPriority := c_mediumPriority acc;
     c_lowPriority := S (c_lowPriority acc) |}.

(** One step of the [reduce] callback. *)
Definition count_task (acc : counts) (task : obj) : counts :=
  let acc := inc_total acc in
  let acc := if truthy (get task "completed") then inc_completed acc else inc_pending acc in
  let priority := get task "priority" in
  if strict_eq priority (PStr "High") then inc_highPriority acc
  else if strict_eq priority (PStr "Medium") then inc_mediumPriority acc
  else if strict_eq priority (PStr "Low") then inc_lowPriority acc
  else acc.

Definition zero_counts : counts :=
  {| c_total := 0; c_completed := 0; c_pending := 0;
     c_highPriority := 0; c_mediumPriority := 0; c_lowPriority := 0 |}.

Definition getTaskStats (tasks : value) : stats :=
  match tasks with
  | VArr ts =>
      let acc := fold_left count_task ts zero_counts in
      {| total := c_total acc;
         completed := c_completed acc;
         pending := c_pending acc;
         highPriority := c_highPriority acc;
         mediumPriority := c_mediumPriority acc;
         lowPriority := c_lowPriority acc;
         completionRate :=
           if 0 <? c_total acc
           then (Number (c_completed acc) / Number (c_total acc) * 100)%float
           else 0%float |}
  | _ =>
      {| total := 0; completed := 0; pending := 0;
         highPriority := 0; mediumPriority := 0; lowPriority := 0;
         completionRate := 0%float |}
  end.

(** ** JSON.stringify and JSON.parse

    The two platform functions on the values of the model: a primitive, a
    flat record, an array of flat records.  Members are written in the
    enumeration order of the map; JSON.parse builds the same record from
    any member order.

    [JSON_parse] is the parser on the texts of these values: where it
    answers [Ok v] the text is JSON and denotes [v].  Its [Throw] covers the
    malformed texts, on which JSON.parse throws, and also the texts of
    values the model has no place for (a number, a nested array or object,
    an array element that is not an object, a code unit beyond Latin-1), on
    which JSON.parse returns that value.  A property therefore reads a text
    only where [JSON_parse] answers [Ok]: a text [JSON_stringify] wrote, or a
    text assumed to parse. *)

Definition quote_char : ascii := "034"%char.

Definition hex_digit (n : nat) : ascii :=
  if n <? 10 then ascii_of_nat (48 + n) else ascii_of_nat (87 + n).

(** QuoteJSONString, one code unit. *)
Definition escape_char (c : ascii) : string :=
  let n := nat_of_ascii c in
  if n =? 8 then "\b"
  else if n =? 9 then "\t"
  else if n =? 10 then "\n"
  else if n =? 12 then "\f"
  else if n =? 13 then "\r"
  else if n =? 34 then String "\" (String quote_char EmptyString)
  else if n =? 92 then "\\"
  else if n <? 32 then
    "\u00" +:+ String (hex_digit (n / 16)) (String (hex_digit (n mod 16)) EmptyString)
  else String c EmptyString.

Fixpoint escape (s : string) : string :=
  match s with
  | EmptyString => EmptyString
  | String c r => escape_char c +:+ escape r
  end.

Definition QuoteJSONString (s : string) : string :=
  String quote_char (escape s +:+ String quote_char EmptyString).

(** SerializeJSONProperty on a primitive that is not [undefined]. *)
Definition print_prim (p : prim) : string :=
  match p with
  | PUndefined | PNull => "null"
  | PBool true => "true"
  | PBool false => "false"
  | PStr s => QuoteJSONString s
  end.

Definition print_member (kv : string * prim) : string :=
  QuoteJSONString kv.1 +:+ ":" +:+ print_prim kv.2.

(** The properties JSON writes: one whose value is [undefined] is left
    out. *)
Definition without_undefined (o : obj) : obj :=
  filter (fun kv => kv.2 <> PUndefined) o.

Definition SerializeJSONObject (o : obj) : string :=
  "{" +:+ join "," (print_member <$> map_to_list (without_undefined o)) +:+ "}".

Definition SerializeJSONArray (ts : list obj) : string :=
  "[" +:+ join "," (SerializeJSONObject <$> ts) +:+ "]".

(** [JSON.stringify(v)]; [None] is the [undefined] it returns for
    [undefined]. *)
Definition JSON_stringify (v : value) : option string :=
  match v with
  | VPrim PUndefined => None
  | VPrim p => Some (print_prim p)
  | VObj o => Some (SerializeJSONObject o)
  | VArr ts => Some (SerializeJSONArray ts)
  end.

Definition is_json_ws (c : ascii) : bool :=
  let n := nat_of_ascii c in (n =? 32) || (n =? 9) || (n =? 10) || (n =? 13).

Fixpoint skip_ws (s : string) : string :=
  match s with
  | EmptyString => EmptyString
  | String c r => if is_json_ws c then skip_ws r else s
  end.

Definition hex_value (c : ascii) : option nat :=
  let n := nat_of_ascii c in
  if (48 <=? n) && (n <=? 57) then Some (n - 48)
  else if (97 <=? n) && (n <=? 102) then Some (n - 87)
  else if (65 <=? n) && (n <=? 70) then Some (n - 55)
  else None.

(** The single-character escapes. *)
Definition unescape (e : ascii) : option ascii :=
  let n := nat_of_ascii e in
  if n =? 34 then Some quote_char
  else if n =? 92 then Some "\"%char
  else if n =? 47 then Some "/"%char
  else if n =? 98 then Some "008"%char
  else if n =? 102 then Some "012"%char
  else if n =? 110 then Some "010"%char
  else if n =? 114 then Some "013"%char
  else if n =? 116 then Some "009"%char
  else None.

Definition cons_char (c : ascii) (r : option (string * string)) : option (string * string) :=
  match r with
  | Some (s, rest) => Some (String c s, rest)
  | None => None
  end.

(** The characters of a string literal after its opening quote, up to the
    closing quote: the string denoted and the rest of the input. *)
Fixpoint parse_chars (s : string) : option (string * string) :=
  match s with
  | EmptyString => None
  | String c r =>
      if Ascii.eqb c quote_char then Some (EmptyString, r)
      else if Ascii.eqb c "\" then
        match r with
        | EmptyString => None
        | String e r1 =>
            if Ascii.eqb e "u" then
              match r1 with
              | String h1 (String h2 (String h3 (String h4 r2))) =>
                  match hex_value h1, hex_value h2, hex_value h3, hex_value h4 with
                  | Some a, Some b, Some c', Some d =>
                      let n := ((a * 16 + b) * 16 + c') * 16 + d in
                      if n <? 256 then cons_char (ascii_of_nat n) (parse_chars r2) else None
                  | _, _, _, _ => None
                  end
              | _ => None
              end
            else
              match unescape e with
              | Some d => cons_char d (parse_chars r1)
              | None => None
              end
        end
      else if nat_of_ascii c <? 32 then None
      else cons_char c (parse_chars r)
  end.

Fixpoint strip_prefix (p s : string) : option string :=
  match p with
  | EmptyString => Some s
  | String a p' =>
      match s with
      | EmptyString => None
      | String b s' => if Ascii.eqb a b then strip_prefix p' s' else None
      end
  end.

(** A string literal, [true], [false] or [null] at the head of the input. *)
Definition parse_prim (s : string) : option (prim * string) :=
  match s with
  | EmptyString => None
  | String c r =>
      if Ascii.eqb c quote_char then
        '(str, rest) ← parse_chars r; Some (PStr str, rest)
      else
        match strip_prefix "true" s, strip_prefix "false" s, strip_prefix "null" s with
        | Some rest, _, _ => Some (PBool true, rest)
        | _, Some rest, _ => Some (PBool false, rest)
        | _, _, Some rest => Some (PNull, rest)
        | _, _, _ => None
        end
  end.

(** The members of an object after its opening brace, the closing brace
    included; one unit of fuel is spent on each member. *)
Fixpoint parse_members (fuel : nat) (s : string) : option (list (string * prim) * string) :=
  match fuel with
  | 0 => None
  | S fuel =>
      match skip_ws s with
      | EmptyString => None
      | String c r =>
          if negb (Ascii.eqb c quote_char) then None
          else
            '(k, r1) ← parse_chars r;
            match skip_ws r1 with
            | EmptyString => None
            | String c1 r2 =>
                if negb (Ascii.eqb c1 ":") then None
                else
                  '(v, r3) ← parse_prim (skip_ws r2);
                  match skip_ws r3 with
                  | EmptyString => None
                  | String c2 r4 =>
                      if Ascii.eqb c2 "," then
                        '(ms, r5) ← parse_members fuel r4; Some ((k, v) :: ms, r5)
                      else if Ascii.eqb c2 "}" then Some ([(k, v)], r4)
                      else None
                  end
            end
      end
  end.

(** An object after its opening brace.  A repeated key keeps its last
    value. *)
Definition parse_object (s : string) : option (obj * string) :=
  match skip_ws s with
  | EmptyString => None
  | String c r =>
      if Ascii.eqb c "}" then Some (∅, r)
      else
        '(ms, rest) ← parse_members (String.length s) s;
        Some (list_to_map (reverse ms), rest)
  end.

(** The elements of an array after its opening bracket, the closing bracket
    included; every element is an object. *)
Fixpoint parse_elements (fuel : nat) (s : string) : option (list obj * string) :=
  match fuel with
  | 0 => None
  | S fuel =>
      match skip_ws s with
      | EmptyString => None
      | String c r =>
          if negb (Ascii.eqb c "{") then None
          else
            '(o, r1) ← parse_object r;
            match skip_ws r1 with
            | EmptyString => None
            | String c1 r2 =>
                if Ascii.eqb c1 "," then
                  '(os, r3) ← parse_elements fuel r2; Some (o :: os, r3)
                else if Ascii.eqb c1 "]" then Some ([o], r2)
                else None
            end
      end
  end.

Definition parse_array (s : string) : option (list obj * string) :=
  match skip_ws s with
  | EmptyString => None
  | String c r =>
      if Ascii.eqb c "]" then Some ([], r)
      else parse_elements (String.length s) s
  end.

Definition parse_value (s : string) : option (value * string) :=
  match skip_ws s with
  | EmptyString => None
  | String c r =>
      if Ascii.eqb c "[" then '(ts, rest) ← parse_array r; Some (VArr ts, rest)
      else if Ascii.eqb c "{" then '(o, rest) ← parse_object r; Some (VObj o, rest)
      else '(p, rest) ← parse_prim (String c r); Some (VPrim p, rest)
  end.

Definition JSON_parse (s : string) : outcome value :=
  match parse_value s with
  | Some (v, rest) =>
      match skip_ws rest with
      | EmptyString => Ok v
      | _ => Throw "SyntaxError"
      end
  | None => Throw "SyntaxError"
  end.

(** ** utils/local-storage.js *)

(** The key-value store behind [localStorage]. *)
Abbreviation storage := (gmap string string).

(** Whether the host lets [setItem] write (quota, availability). *)
Variable setItem_accepts : storage -> string -> string -> bool.

Definition setItem (key val : string) (store : storage) : outcome storage :=
  if setItem_accepts store key val then Ok (<[key := val]> store)
  else Throw "QuotaExceededError".

(** [getItem]: [None] is the [null] of an absent key. *)
Definition getItem (key : string) (store : storage) : option string := store !! key.

Definition STORAGE_KEY := "tasks".

(** [saveTasks(tasks)]: the success flag and the store it leaves. *)
Definition saveTasks (tasks : value) (store : storage) : bool * storage :=
  if negb (isArray tasks) then (false, store)
  else
    (* setItem turns the [undefined] of JSON.stringify into a string *)
    let serializedTasks :=
      match JSON_stringify tasks with
      | Some text => text
      | None => "undefined"
      end in
    match setItem STORAGE_KEY serializedTasks store with
    | Ok store' => (true, store')
    | Throw _ => (false, store)
    end.

(** [loadTasks()].  It is the source's on a store whose text of the tasks is
    absent, empty, or one [JSON_parse] answers [Ok] on; see [JSON_parse] for
    the other texts. *)
Definition loadTasks (store : storage) : list obj :=
  match getItem STORAGE_KEY store with
  | None => []
  | Some serializedTasks =>
      if String.eqb serializedTasks EmptyString then []
      else
        match JSON_parse serializedTasks with
        | Ok (VArr tasks) => tasks
        | Ok _ => []
        | Throw _ => []
        end
  end.

(** ** utils/local-storage.js: clearTasks, isLocalStorageAvailable, getStorageInfo *)

(** [localStorage.removeItem(key)]: the standard gives it no way to fail; an
    absent key is left alone. *)
Definition removeItem (key : string) (store : storage) : storage := delete key store.

Definition clearTasks (store : storage) : bool * storage :=
  (true, removeItem STORAGE_KEY store).

Definition testKey := "__localStorage_test__".

(** [isLocalStorageAvailable()]: a write of the test key and its removal. *)
Definition isLocalStorageAvailable (store : storage) : bool * storage :=
  match setItem testKey "test" store with
  | Ok store' => (true, removeItem testKey store')
  | Throw _ => (false, store)
  end.




(** ** hooks/use-task-manager.js: clearAllTasks, the getters, the counters *)

Definition clearAllTasks (m : manager) : result * manager :=
  (Success None, {| tasks := []; error := None |}).

Definition getSortedTasks (sortBy sortOrder : string) (m : manager) : outcome (list obj) :=
  sortTasks (VArr (tasks m)) sortBy sortOrder.

(** [tasks.find((task) => task.id === taskId) || null]; [None] is the
    [null].  A record is an object, hence truthy: the [||] only replaces the
    [undefined] of a search that found nothing. *)
Definition getTaskById (taskId : prim) (m : manager) : option obj :=
  List.find (fun task => strict_eq (get task "id") taskId) (tasks m).

Definition getTasksByStatus (completed : prim) (m : manager) : list obj :=
  List.filter (fun task => strict_eq (get task "completed") completed) (tasks m).

Definition getTasksByPriority (priority : prim) (m : manager) : list obj :=
  List.filter (fun task => strict_eq (get task "priority") priority) (tasks m).

(** The counters of the object the hook returns. *)
Definition totalTasks (m : manager) : nat := length (tasks m).

Definition completedTasks (m : manager) : nat :=
  length (List.filter (fun task => truthy (get task "completed")) (tasks m)).

Definition pendingTasks (m : manager) : nat :=
  length (List.filter (fun task => negb (truthy (get task "completed"))) (tasks m)).

(** ** hooks/use-task-manager.js: the effects

    The state of the hook with its [loading] flag, and the bodies of the two
    effects.  React runs the first once after the first render and the
    second after every render in which [tasks], [autoSave] or [loading]
    changed. *)
Record hook : Type := { state : manager; loading : bool }.

(** The state of the first render. *)
Definition initial : hook :=
  {| state := {| tasks := []; error := None |}; loading := true |}.

(** The effect that loads on mount.  [loadTasks] does not throw, so the
    [catch] is never entered. *)
Definition mount_effect (store : storage) (h : hook) : hook :=
  {| state := {| tasks := loadTasks store; error := None |}; loading := false |}.

(** The effect that saves.  [saveTasks] reports a failure by its result,
    which the effect ignores. *)
Definition autoSave_effect (autoSave : bool) (h : hook) (store : storage) : hook * storage :=
  if autoSave && negb (loading h) && (0 <=? length (tasks (state h))) then
    let '(_, store') := saveTasks (VArr (tasks (state h))) store in
    ({| state := {| tasks := tasks (state h); error := None |}; loading := loading h |}, store')
  else (h, store).

(** ** The TaskManager component: its handlers and its own sort *)

Definition handleAddTask (task : obj) (prevTasks : list obj) : list obj :=
  prevTasks ++ [task].

Definition handleUpdateTask (updatedTask : obj) (prevTasks : list obj) : list obj :=
  List.map (fun task =>
         if strict_eq (get task "id") (get updatedTask "id") then updatedTask else task)
    prevTasks.

Definition handleDeleteTask (id : prim) (prevTasks : list obj) : list obj :=
  List.filter (fun task => negb (strict_eq (get task "id") id)) prevTasks.

(** ToString of a field value. *)
Definition ToString (p : prim) : string :=
  match p with
  | PUndefined => "undefined"
  | PNull => "null"
  | PBool true => "true"
  | PBool false => "false"
  | PStr s => s
  end.

(** [a.localeCompare(b)]: a TypeError unless [a] is a string; [b] is
    converted to one. *)
Definition localeCompare_of (a b : prim) : outcome number :=
  match a with
  | PStr s => Ok (Fin (localeCompare s (ToString b)))
  | PUndefined => Throw "TypeError: Cannot read properties of undefined"
  | PNull => Throw "TypeError: Cannot read properties of null"
  | PBool _ => Throw "TypeError: localeCompare is not a function"
  end.

(** The comparator of the component's [sortTasks]. *)
Definition TaskManager_compare (sortBy sortOrder : string) (a b : obj) : outcome number :=
  comparison ←
    (if String.eqb sortBy "priority" then
       Ok (sub (PRIORITY_ORDER (get b "priority")) (PRIORITY_ORDER (get a "priority")))
     else if String.eqb sortBy "progress" then
       Ok (if strict_eq (get a "completed") (get b "completed") then Fin 0
           else if truthy (get a "completed") then Fin 1 else Fin (-1))
     else if String.eqb sortBy "created" then
       Ok (sub (new_Date (get b "createdAt")) (new_Date (get a "createdAt")))
     else if String.eqb sortBy "title" then
       localeCompare_of (get a "title") (get b "title")
     else Ok (Fin 0));
  Ok (if String.eqb sortOrder "asc" then comparison else neg comparison).

Definition TaskManager_sortTasks (sortBy sortOrder : string) (tasks : list obj)
  : outcome (list obj) :=
  Array_sort (TaskManager_compare sortBy sortOrder) tasks.

(** ** Stable sorting, as a specification

    The stable insertion sort of a comparator that returns a number, with
    the order and the ties it induces. *)

Fixpoint insert_by {A} (c : A -> A -> Z) (x : A) (l : list A) : list A :=
  match l with
  | [] => [x]
  | y :: r => if (0 <? c x y)%Z then y :: insert_by c x r else x :: l
  end.

Fixpoint stable_sort {A} (c : A -> A -> Z) (l : list A) : list A :=
  match l with
  | [] => []
  | x :: r => insert_by c x (stable_sort c r)
  end.

Definition before {A} (c : A -> A -> Z) (x y : A) : Prop := (c x y <= 0)%Z.
Definition tied {A} (c : A -> A -> Z) (x y : A) : bool := (c x y =? 0)%Z.

(** The maximal runs of neighbours that compare equal. *)
Fixpoint tie_runs {A} (c : A -> A -> Z) (l : list A) : list (list A) :=
  match l with
  | [] => []
  | x :: r =>
      match tie_runs c r with
      | [] => [[x]]
      | [] :: gs => [x] :: gs
      | (y :: g) :: gs =>
          if tied c x y then (x :: y :: g) :: gs else [x] :: (y :: g) :: gs
      end
  end.

(** ** The order a sort is judged by *)

(** The number [sort] works with when it compares [a] and [b]: the value of
    the comparator, NaN read as zero. *)
Definition comparison (sortBy sortOrder : string) (a b : obj) : Z :=
  match compareTasks sortBy sortOrder a b with
  | Ok v => sort_compare v
  | Throw _ => 0
  end.

(** Records the comparator of [sortBy] orders consistently: the field it
    reads is well-formed (a date that parses, one of the three priorities, a
    string title).  [progress] and an unknown key ask nothing. *)
Definition sortable (sortBy : string) (task : obj) : bool :=
  if String.eqb sortBy SORT_CREATED then negb (isNaN (new_Date (get task "createdAt")))
  else if String.eqb sortBy SORT_PRIORITY then negb (isNaN (PRIORITY_ORDER (get task "priority")))
  else if String.eqb sortBy SORT_TITLE then String.eqb (typeof (get task "title")) "string"
  else true.

(** Records [filterTasks] can search: a string title, and a description
    that is falsy (absent, empty) or a string. *)
Definition searchable (task : obj) : bool :=
  String.eqb (typeof (get task "title")) "string"
  && (negb (truthy (get task "description"))
      || String.eqb (typeof (get task "description")) "string").

(** Records JSON can carry as they are: no property holds [undefined]. *)
Definition serializable (task : obj) : Prop :=
  map_Forall (fun _ v => v <> PUndefined) task.

#[global] Instance serializable_dec (task : obj) : Decision (serializable task).
Proof. unfold serializable. apply _. Defined.

(** ** What a search finds *)

(** The text [filterTasks] searches in a field that is a string: its lower
    case. *)
Definition searched (p : prim) : string :=
  match p with
  | PStr s => toLowerCase s
  | _ => EmptyString
  end.

(** Whether a record matches the term: its title contains the term, or its
    description is truthy and contains it. *)
Definition found (term : string) (task : obj) : bool :=
  includes (searched (get task "title")) term
  || (truthy (get task "description") && includes (searched (get task "description")) term).

(** ** Sample inputs

    The inputs the properties are tried on. *)

(** A title of 100 letters and a trailing space: 101 code units, 100 after
    trimming. *)
Definition padded_title : string := repeat_string "a" 100 +:+ " ".

Definition padded_task : obj := <["title" := PStr padded_title]> task_1.

Definition draft_without_completed : obj :=
  {[ "title" := PStr "Buy milk"; "priority" := PStr "High" ]}.

(** A draft that brings its own [id]. *)
Definition draft_with_id : obj :=
  {[ "id" := PStr "1"; "title" := PStr "Buy milk"; "priority" := PStr "High" ]}.

(** A record without a title. *)
Definition untitled_task : obj := {[ "id" := PStr "5"; "description" := PStr "No title" ]}.

Definition one_task : manager := {| tasks := [task_1]; error := None |}.
Definition four_tasks : manager := {| tasks := mockTasks; error := None |}.

(** The patch of the test suite: a new title and a new priority. *)
Definition title_patch : obj := {[ "title" := PStr "Updated Task"; "priority" := PStr "High" ]}.

Definition patched_task_2 : obj := spread task_2 title_patch.

Definition four_tasks_patched : manager :=
  {| tasks := [task_1; patched_task_2; task_3; task_4]; error := None |}.


(** The record [addTask] makes of [draft_without_completed] with the id and
    the clock of the test suite, and the state it leaves. *)
Definition created_task : obj :=
  <["createdAt" := PStr "2024-01-02T00:00:00.000Z"]>
    (<["completed" := PBool false]>
       (spread {["id" := PStr "mock-uuid-123"]} draft_without_completed)).

Definition two_tasks : manager := {| tasks := [task_1; created_task]; error := None |}.


(** The hook once the four records are loaded. *)
Definition loaded_hook : hook := {| state := four_tasks; loading := false |}.

(** * Properties *)

(** ** validateTask *)

Lemma In_push_if (c : bool) (msg x : string) (l : list string) :
  In x (push_if c msg l) <-> In x l \/ (c = true /\ x = msg).
Proof using.
  clear. unfold push_if. destruct c.
  - rewrite in_app_iff. simpl. intuition congruence.
  - intuition congruence.
Qed.

(** The error list of a record, as the pushes of [validateTask] build it. *)
Lemma validateTask_errors (o : obj) x :
  In x (errors (validateTask (VObj o))) <->
    (negb (truthy (get o "title")) || negb (String.eqb (typeof (get o "title")) "string")
       || blank (get o "title") = true /\ x = title_required)
    \/ (truthy (get o "title") && exceeds (length_of (get o "title")) 100 = true
        /\ x = title_too_long)
    \/ (truthy (get o "description")
          && negb (String.eqb (typeof (get o "description")) "string") = true
        /\ x = description_not_string)
    \/ (truthy (get o "description") && exceeds (length_of (get o "description")) 500 = true
        /\ x = description_too_long)
    \/ (negb (truthy (get o "priority"))
          || negb (bool_decide (get o "priority" ∈ [PStr "High"; PStr "Medium"; PStr "Low"]))
          = true
        /\ x = priority_invalid)
    \/ (negb (String.eqb (typeof (get o "completed")) "boolean") = true
        /\ x = completed_not_boolean)
    \/ (truthy (get o "createdAt") && isNaN (new_Date (get o "createdAt")) = true
        /\ x = createdAt_invalid).
Proof using Date_parse.
  clear localeCompare setItem_accepts.
  unfold validateTask. cbn [truthy_value negb field errors].
  rewrite !In_push_if. cbn [In]. tauto.
Qed.

Lemma validateTask_isValid (v : value) :
  isValid (validateTask v) = true <-> errors (validateTask v) = [].
Proof.
  unfold validateTask. destruct (negb (truthy_value v)); cbn [isValid errors].
  - split; discriminate.
  - rewrite Nat.eqb_eq. apply length_zero_iff_nil.
Qed.

(** C4, as the code has it: for a record with a string title, the
    title-too-long error is reported exactly when the length of the title as
    it stands, leading and trailing white space counted, exceeds 100. *)
Theorem validateTask_title_too_long (o : obj) (t : string) :
  o !! "title" = Some (PStr t) ->
  In title_too_long (errors (validateTask (VObj o))) <-> 100 < String.length t.
Proof.
  intros Htitle. rewrite validateTask_errors.
  unfold get. rewrite Htitle. cbn [default truthy length_of exceeds].
  split.
  - intros [[_ H]|[[H _]|[[_ H]|[[_ H]|[[_ H]|[[_ H]|[_ H]]]]]]]; try discriminate H.
    apply andb_prop in H as [_ H]. by apply Nat.ltb_lt in H.
  - intros Hlen. right. left. split; [|done].
    apply andb_true_intro. split; [|by apply Nat.ltb_lt].
    destruct t; [simpl in Hlen; lia|done].
Qed.

(** C10: a record in which [completed] is absent gets the completed type
    error, so its error set is not empty and it does not pass validation. *)
Theorem validateTask_completed_absent (o : obj) :
  o !! "completed" = None ->
  In completed_not_boolean (errors (validateTask (VObj o)))
  /\ errors (validateTask (VObj o)) <> []
  /\ isValid (validateTask (VObj o)) = false.
Proof.
  intros Habsent.
  assert (Hin : In completed_not_boolean (errors (validateTask (VObj o)))).
  { rewrite validateTask_errors. do 5 right. left.
    unfold get. rewrite Habsent. done. }
  assert (Hne : errors (validateTask (VObj o)) <> []).
  { intros Hnil. rewrite Hnil in Hin. destruct Hin. }
  split; [done|]. split; [done|].
  destruct (isValid (validateTask (VObj o))) eqn:Hvalid; [|done].
  by apply validateTask_isValid in Hvalid.
Qed.

(** ** The manager *)

Lemma findIndex_Some (taskId : prim) (l : list obj) (i : nat) :
  findIndex taskId l = Some i ->
  exists task, l !! i = Some task /\ strict_eq (get task "id") taskId = true.
Proof.
  revert i. induction l as [|task l IH]; intros i; simpl; [done|].
  destruct (strict_eq (get task "id") taskId) eqn:Hid.
  - intros [= <-]. by exists task.
  - destruct (findIndex taskId l) as [j|]; [|done].
    intros [= <-]. by apply IH.
Qed.

Lemma findIndex_None (taskId : prim) (l : list obj) :
  (forall task, task ∈ l -> strict_eq (get task "id") taskId = false) ->
  findIndex taskId l = None.
Proof.
  induction l as [|task l IH]; intros Hall; simpl; [done|].
  rewrite Hall by left. rewrite IH; [done|].
  intros task' Hin. apply Hall. by right.
Qed.

Lemma existsb_id_absent (taskId : prim) (l : list obj) :
  (forall task, task ∈ l -> strict_eq (get task "id") taskId = false) ->
  existsb (fun task => strict_eq (get task "id") taskId) l = false.
Proof.
  induction l as [|task l IH]; intros Hall; simpl; [done|].
  rewrite Hall by left. apply IH. intros task' Hin. apply Hall. by right.
Qed.

(** The three ways a call of [updateTask] goes: no record has the id; the
    merge passes validation; it does not. *)
Lemma updateTask_absent (taskId : prim) (u : updates) (m : manager) :
  findIndex taskId (tasks m) = None ->
  updateTask taskId u m = (Success None, {| tasks := tasks m; error := None |})
  /\ updateTask_render taskId u m = Some "Task not found".
Proof.
  intros Hfind. unfold updateTask, updateTask_render, update_updater. by rewrite Hfind.
Qed.

Lemma updateTask_valid (taskId : prim) (u : updates) (m : manager) (i : nat) (prev : obj) :
  findIndex taskId (tasks m) = Some i ->
  tasks m !! i = Some prev ->
  isValid (validateTask (VObj (spread prev (own_properties u)))) = true ->
  updateTask taskId u m
    = (Success (Some (spread prev (own_properties u))),
       {| tasks := <[i := spread prev (own_properties u)]> (tasks m); error := None |})
  /\ updateTask_render taskId u m = None.
Proof.
  intros Hfind Hprev Hvalid. unfold updateTask, updateTask_render, update_updater.
  rewrite Hfind, Hprev. change (default ∅ (Some prev)) with prev. by rewrite Hvalid.
Qed.


(** C6: when no record of the collection has the id, neither operation
    returns the not-found failure.  The updater throws inside React's
    dispatch, which swallows it: [updateTask] and [deleteTask] each answer
    success, with no task and no error flag; the collection stays as it was,
    and the render that follows throws "Task not found". *)
Theorem not_found_reports_success (taskId : prim) (u : updates) (m : manager) :
  (forall task, task ∈ tasks m -> strict_eq (get task "id") taskId = false) ->
  updateTask taskId u m = (Success None, {| tasks := tasks m; error := None |})
  /\ updateTask_render taskId u m = Some "Task not found"
  /\ deleteTask taskId m = (Success None, {| tasks := tasks m; error := None |})
  /\ deleteTask_render taskId m = Some "Task not found".
Proof.
  intros Habsent.
  destruct (updateTask_absent taskId u m (findIndex_None _ _ Habsent)) as [Hupdate Hrender].
  split; [exact Hupdate|]. split; [exact Hrender|].
  unfold deleteTask, deleteTask_render, delete_updater.
  by rewrite existsb_id_absent.
Qed.


(** [toggleTask] never changes the collection: the function it passes as
    the update has no own property to merge. *)
Lemma toggleTask_collection_unchanged (taskId : prim) (m : manager) :
  tasks (toggleTask taskId m).2 = tasks m.
Proof.
  unfold toggleTask, updateTask, update_updater. cbn [snd tasks].
  destruct (findIndex taskId (tasks m)) as [i|] eqn:Hfind; [|done].
  destruct (findIndex_Some _ _ _ Hfind) as (prev & Hprev & _).
  rewrite Hprev. change (default ∅ (Some prev)) with prev.
  cbn [own_properties]. unfold spread. rewrite (left_id_L ∅ (∪)).
  destruct (negb (isValid (validateTask (VObj prev)))); cbn [snd setTasks nextTasks];
    [done|by apply list_insert_id].
Qed.

(** What a successful [addTask] created: [createdAt] and [completed] are
    the manager's, [id] is the draft's when the draft has one. *)
Lemma addTask_Success (uuid now : string) (taskData : obj) (m m' : manager) (r : option obj) :
  addTask uuid now taskData m = (Success r, m') ->
  exists newTask,
    r = Some newTask
    /\ tasks m' = (tasks m ++ [newTask])%list
    /\ newTask !! "createdAt" = Some (PStr now)
    /\ newTask !! "completed" = Some (PBool false)
    /\ newTask !! "id" = Some (default (PStr uuid) (taskData !! "id")).
Proof.
  unfold addTask.
  match goal with |- context [validateTask (VObj ?t)] => set (newTask := t) end.
  destruct (isValid (validateTask (VObj newTask))); cbn [negb]; [|done].
  intros [= <- <-]. exists newTask. cbn [tasks].
  split; [done|]. split; [done|]. subst newTask. unfold spread.
  split; [by rewrite lookup_insert_eq|].
  split; [rewrite lookup_insert_ne by done; by rewrite lookup_insert_eq|].
  rewrite !lookup_insert_ne by done.
  destruct (taskData !! "id") as [v|] eqn:Hid; cbn [default].
  - by apply lookup_union_Some_l.
  - rewrite lookup_union_r by done. by rewrite lookup_singleton_eq.
Qed.

(** ** filterTasks *)

Lemma Array_filter_sublist {A} (callback : A -> outcome bool) (l : list A) :
  Forall (fun x => exists keep, callback x = Ok keep) l ->
  exists kept, Array_filter callback l = Ok kept /\ sublist kept l.
Proof.
  induction 1 as [|x l [keep Hx] _ (kept & Hkept & Hsub)]; simpl.
  - by exists [].
  - rewrite Hx, Hkept. simpl. destruct keep.
    + exists (x :: kept). split; [done|]. by constructor.
    + exists kept. split; [done|]. by constructor.
Qed.

Lemma typeof_string (p : prim) :
  String.eqb (typeof p) "string" = true -> exists s, p = PStr s.
Proof. destruct p; try discriminate. eauto. Qed.

Lemma matches_searchable (term : string) (task : obj) :
  searchable task = true -> exists keep, matches term task = Ok keep.
Proof.
  unfold searchable, matches. intros [Htitle Hdesc]%andb_prop.
  apply typeof_string in Htitle as [t ->]. simpl.
  destruct (includes (toLowerCase t) term); [by eexists|].
  destruct (truthy (get task "description")) eqn:Htruthy; [|by eexists].
  simpl in Hdesc. apply typeof_string in Hdesc as [d ->]. by eexists.
Qed.

(** C5, as the code has it: [filterTasks] returns without throwing whenever
    the search it has to run is well-formed, that is, whenever a truthy
    search term is a string and the records of an array all have a string
    title and a description that is falsy or a string.  The result is the
    input itself when the search term is falsy or the input is not an array,
    and a sub-sequence of the input array otherwise. *)
Theorem filterTasks_safe (tasks : value) (searchTerm : prim) :
  (forall ts, tasks = VArr ts -> truthy searchTerm = true ->
     typeof searchTerm = "string" /\ Forall (fun task => searchable task = true) ts) ->
  exists v,
    filterTasks tasks searchTerm = Ok v
    /\ (truthy searchTerm = false \/ isArray tasks = false -> v = tasks)
    /\ (forall ts, tasks = VArr ts -> exists kept, v = VArr kept /\ sublist kept ts).
Proof.
  intros Hwf. unfold filterTasks.
  destruct (truthy searchTerm) eqn:Hterm; cbn [negb orb].
  2:{ exists tasks. split; [done|]. split; [done|].
      intros ts ->. by exists ts. }
  destruct tasks as [p|o|ts]; cbn [isArray negb].
  - exists (VPrim p). split; [done|]. split; [done|]. intros ts [=].
  - exists (VObj o). split; [done|]. split; [done|]. intros ts [=].
  - destruct (Hwf ts eq_refl eq_refl) as [Hstring Hrecords].
    destruct searchTerm as [| |b|term]; try discriminate Hstring. cbn.
    destruct (Array_filter_sublist (matches (trim (toLowerCase term))) ts)
      as (kept & -> & Hsub).
    { eapply Forall_impl; [exact Hrecords|]. intros task. apply matches_searchable. }
    exists (VArr kept). split; [done|]. split.
    + intros [|]; discriminate.
    + intros ? [= <-]. by exists kept.
Qed.

(** ** getTaskStats *)

Lemma strict_eq_exclusive (p a b : prim) :
  a <> b -> strict_eq p a = true -> strict_eq p b = false.
Proof.
  unfold strict_eq. intros Hab Ha%bool_decide_eq_true.
  apply bool_decide_eq_false. congruence.
Qed.

Lemma fold_count_task (ts : list obj) (acc : counts) :
  fold_left count_task ts acc =
    {| c_total := c_total acc + length ts;
       c_completed :=
         c_completed acc + length (List.filter (fun t => truthy (get t "completed")) ts);
       c_pending :=
         c_pending acc + length (List.filter (fun t => negb (truthy (get t "completed"))) ts);
       c_highPriority :=
         c_highPriority acc
         + length (List.filter (fun t => strict_eq (get t "priority") (PStr "High")) ts);
       c_mediumPriority :=
         c_mediumPriority acc
         + length (List.filter (fun t => strict_eq (get t "priority") (PStr "Medium")) ts);
       c_lowPriority :=
         c_lowPriority acc
         + length (List.filter (fun t => strict_eq (get t "priority") (PStr "Low")) ts) |}.
Proof.
  revert acc. induction ts as [|t ts IH]; intros acc.
  - destruct acc. simpl. f_equal; lia.
  - cbn [fold_left]. rewrite IH. unfold count_task. cbn [List.filter].
    pose proof (strict_eq_exclusive (get t "priority") (PStr "High") (PStr "Medium")) as HM.
    pose proof (strict_eq_exclusive (get t "priority") (PStr "High") (PStr "Low")) as HL.
    pose proof (strict_eq_exclusive (get t "priority") (PStr "Medium") (PStr "Low")) as ML.
    destruct (truthy (get t "completed"));
      destruct (strict_eq (get t "priority") (PStr "High"));
      destruct (strict_eq (get t "priority") (PStr "Medium"));
      destruct (strict_eq (get t "priority") (PStr "Low"));
      try (discriminate HM; done); try (discriminate HL; done);
      try (discriminate ML; done);
      destruct acc; cbn; f_equal; lia.
Qed.

Lemma filter_complement_length {A} (f : A -> bool) (l : list A) :
  length (List.filter f l) + length (List.filter (fun x => negb (f x)) l) = length l.
Proof. induction l as [|x l IH]; simpl; [done|]. destruct (f x); simpl; lia. Qed.

(** C9: the statistics of an array of records are its counts: the total,
    the records whose [completed] is truthy and the others, the records of
    each priority; the completion rate is [completed / total * 100] in double
    arithmetic when the total is positive and zero otherwise, so that the
    empty array yields zeros and no division happens. *)
Theorem getTaskStats_counts (ts : list obj) :
  let s := getTaskStats (VArr ts) in
  total s = length ts
  /\ completed s = length (List.filter (fun t => truthy (get t "completed")) ts)
  /\ pending s = length (List.filter (fun t => negb (truthy (get t "completed"))) ts)
  /\ completed s + pending s = total s
  /\ highPriority s
     = length (List.filter (fun t => strict_eq (get t "priority") (PStr "High")) ts)
  /\ mediumPriority s
     = length (List.filter (fun t => strict_eq (get t "priority") (PStr "Medium")) ts)
  /\ lowPriority s
     = length (List.filter (fun t => strict_eq (get t "priority") (PStr "Low")) ts)
  /\ completionRate s
     = (if 0 <? total s
        then (Number (completed s) / Number (total s) * 100)%float
        else 0%float)
  /\ getTaskStats (VArr [])
     = {| total := 0; completed := 0; pending := 0;
          highPriority := 0; mediumPriority := 0; lowPriority := 0;
          completionRate := 0%float |}.
Proof.
  cbv zeta. unfold getTaskStats. rewrite fold_count_task.
  cbn [total completed pending highPriority mediumPriority lowPriority completionRate
       c_total c_completed c_pending c_highPriority c_mediumPriority c_lowPriority
       zero_counts Nat.add].
  repeat split; try reflexivity.
  apply filter_complement_length.
Qed.

(** ** Stable sorting

    The sort of a pure comparator [c], and what makes its result the one
    sequence a stable sort may return: it is a permutation of the input, it
    is ordered, and records that compare equal stay in their input order.
    [P] marks the elements on which [c] is a consistent comparator. *)

Section StableSort.

Context {A : Type} (c : A -> A -> Z) (P : A -> Prop).

Lemma insert_by_perm (x : A) (l : list A) : Permutation (insert_by c x l) (x :: l).
Proof.
  induction l as [|y r IH]; simpl; [done|].
  destruct (0 <? c x y)%Z; [|done].
  rewrite IH. apply perm_swap.
Qed.

Lemma stable_sort_perm (l : list A) : Permutation (stable_sort c l) l.
Proof.
  induction l as [|x r IH]; simpl; [done|].
  rewrite insert_by_perm. by constructor.
Qed.

Lemma stable_sort_Forall (Q : A -> Prop) (l : list A) :
  Forall Q l -> Forall Q (stable_sort c l).
Proof. intros H. eapply Permutation_Forall; [|exact H]. symmetry. apply stable_sort_perm. Qed.

(** The sort calls the comparator on elements of the array only, so a
    comparator that returns on them makes [Array_sort] return what the pure
    sort computes. *)
Lemma sort_insert_pure (comparefn : A -> A -> outcome number) (x : A) (l : list A) :
  Forall (fun y => exists v, comparefn x y = Ok v /\ sort_compare v = c x y) l ->
  sort_insert comparefn x l = Ok (insert_by c x l).
Proof.
  induction 1 as [|y r (v & Hv & Hc) _ IH]; simpl; [done|].
  rewrite Hv. simpl. rewrite Hc. destruct (0 <? c x y)%Z; [|done].
  by rewrite IH.
Qed.

Lemma Array_sort_pure (comparefn : A -> A -> outcome number) (l : list A) :
  (forall x y, x ∈ l -> y ∈ l ->
     exists v, comparefn x y = Ok v /\ sort_compare v = c x y) ->
  Array_sort comparefn l = Ok (stable_sort c l).
Proof.
  induction l as [|x r IH]; intros Hcmp; simpl; [done|].
  rewrite IH by (intros; apply Hcmp; by right). simpl.
  apply sort_insert_pure, Forall_forall. intros y Hy.
  apply Hcmp; [by left|]. right.
  apply list_elem_of_In. apply list_elem_of_In in Hy.
  eapply Permutation_in; [apply stable_sort_perm|done].
Qed.

(** A sorted input comes back as it is. *)
Lemma stable_sort_sorted_id (l : list A) :
  StronglySorted (before c) l -> stable_sort c l = l.
Proof.
  induction 1 as [|x r _ IH Hx]; simpl; [done|].
  rewrite IH. destruct Hx as [|y r' Hxy _]; simpl; [done|].
  unfold before in Hxy. by destruct (Z.ltb_spec 0 (c x y)); [lia|].
Qed.

(** [c] is consistent on [P]: swapping the arguments swaps the sign, and
    the order is transitive. *)
Hypothesis c_flip : forall x y, P x -> P y -> (0 < c x y <-> c y x < 0)%Z.
Hypothesis c_trans :
  forall x y z, P x -> P y -> P z -> (c x y <= 0 -> c y z <= 0 -> c x z <= 0)%Z.

Lemma tied_sym (x y : A) : P x -> P y -> c x y = 0%Z -> c y x = 0%Z.
Proof.
  intros Hx Hy Hxy.
  pose proof (c_flip x y Hx Hy). pose proof (c_flip y x Hy Hx). lia.
Qed.

Lemma tied_trans (z x y : A) :
  P z -> P x -> P y -> c z x = 0%Z -> c z y = 0%Z -> c x y = 0%Z.
Proof.
  intros Hz Hx Hy Hzx Hzy.
  pose proof (tied_sym z x Hz Hx Hzx). pose proof (tied_sym z y Hz Hy Hzy).
  pose proof (c_trans x z y Hx Hz Hy). pose proof (c_trans y z x Hy Hz Hx).
  pose proof (c_flip x y Hx Hy). pose proof (c_flip y x Hy Hx). lia.
Qed.

Lemma insert_by_sorted (x : A) (l : list A) :
  P x -> Forall P l -> StronglySorted (before c) l -> StronglySorted (before c) (insert_by c x l).
Proof.
  intros Hx HP Hsorted. induction Hsorted as [|y r Hr IH Hy]; simpl.
  - by repeat constructor.
  - apply Forall_cons in HP as [HPy HPr].
    destruct (Z.ltb_spec 0 (c x y)) as [Hgt|Hle].
    + constructor; [by apply IH|].
      eapply Permutation_Forall; [symmetry; apply insert_by_perm|].
      constructor; [|done]. unfold before.
      pose proof (c_flip x y Hx HPy). lia.
    + constructor; [by constructor|]. constructor; [done|].
      rewrite Forall_forall in Hy, HPr. apply Forall_forall. intros z Hz.
      unfold before in *. apply (c_trans x y z); auto.
Qed.

Lemma stable_sort_sorted (l : list A) :
  Forall P l -> StronglySorted (before c) (stable_sort c l).
Proof.
  induction 1 as [|x r Hx Hr IH]; simpl; [constructor|].
  apply insert_by_sorted; [done| |done]. by apply stable_sort_Forall.
Qed.

Lemma insert_by_stable (z x : A) (l : list A) :
  P z -> P x -> Forall P l ->
  List.filter (tied c z) (insert_by c x l) = List.filter (tied c z) (x :: l).
Proof.
  intros Hz Hx. induction 1 as [|y r Hy Hr IH]; [done|].
  cbn [insert_by]. destruct (Z.ltb_spec 0 (c x y)) as [Hgt|Hle]; [|done].
  cbn [List.filter] in *. rewrite IH. unfold tied.
  destruct (Z.eqb_spec (c z y) 0) as [Hzy|]; [|done].
  destruct (Z.eqb_spec (c z x) 0) as [Hzx|]; [|done].
  pose proof (tied_trans z x y Hz Hx Hy Hzx Hzy). lia.
Qed.

Lemma stable_sort_stable (z : A) (l : list A) :
  P z -> Forall P l ->
  List.filter (tied c z) (stable_sort c l) = List.filter (tied c z) l.
Proof.
  intros Hz. induction 1 as [|x r Hx Hr IH]; [done|].
  cbn [stable_sort]. rewrite insert_by_stable; [|done..|by apply stable_sort_Forall].
  cbn [List.filter]. by rewrite IH.
Qed.

(** Two ordered permutations of one another that list the records of every
    tie in the same order are the same sequence. *)
Lemma stable_sorted_unique (l1 l2 : list A) :
  Forall P l1 ->
  Permutation l1 l2 ->
  StronglySorted (before c) l1 ->
  StronglySorted (before c) l2 ->
  (forall z, P z -> List.filter (tied c z) l1 = List.filter (tied c z) l2) ->
  l1 = l2.
Proof.
  intros HP. revert l2. induction HP as [|x r1 Hx Hr1 IH]; intros l2 Hperm Hs1 Hs2 Htie.
  - by apply Permutation_nil in Hperm.
  - destruct l2 as [|y r2]; [by apply Permutation_sym, Permutation_nil in Hperm|].
    assert (HP2 : Forall P (y :: r2)).
    { eapply Permutation_Forall; [exact Hperm|]. by constructor. }
    apply Forall_cons in HP2 as [Hy Hr2].
    apply StronglySorted_inv in Hs1 as [Hs1 Hx1].
    apply StronglySorted_inv in Hs2 as [Hs2 Hy2].
    assert (Hxy : c x y = 0%Z).
    { assert (before c y x) as Hyx.
      { assert (In x (y :: r2)) as [->|Hin]
          by (eapply Permutation_in; [exact Hperm|by left]).
        - unfold before. pose proof (c_flip x x Hx Hx). lia.
        - rewrite List.Forall_forall in Hy2. by apply Hy2. }
      assert (before c x y) as Hxy'.
      { assert (In y (x :: r1)) as [->|Hin]
          by (eapply Permutation_in; [symmetry; exact Hperm|by left]).
        - done.
        - rewrite List.Forall_forall in Hx1. by apply Hx1. }
      unfold before in *. pose proof (c_flip x y Hx Hy). pose proof (c_flip y x Hy Hx). lia. }
    assert (x = y) as <-.
    { pose proof (Htie x Hx) as Hfx. cbn [List.filter] in Hfx. unfold tied in Hfx.
      rewrite Hxy in Hfx.
      assert (c x x = 0%Z) as Hxx by (pose proof (c_flip x x Hx Hx); lia).
      rewrite Hxx in Hfx. simpl in Hfx. by injection Hfx. }
    f_equal. apply IH; [by eapply Permutation_cons_inv|done..|].
    intros z Hz. pose proof (Htie z Hz) as Hfz. cbn [List.filter] in Hfz.
    destruct (tied c z x); [by injection Hfz|done].
Qed.

End StableSort.

Lemma StronglySorted_rev_flip {A} (c c' : A -> A -> Z) (P : A -> Prop) (l : list A) :
  (forall x y, P x -> P y -> (c y x <= 0 -> c' x y <= 0)%Z) ->
  Forall P l ->
  StronglySorted (before c) l ->
  StronglySorted (before c') (rev l).
Proof.
  intros Hflip HP Hsorted. induction Hsorted as [|x r Hr IH Hx]; simpl; [constructor|].
  apply Forall_cons in HP as [HPx HPr].
  apply StronglySorted_app. split; [|split].
  - intros x1 x2 Hx1 Hx2. apply list_elem_of_singleton in Hx2 as ->.
    apply list_elem_of_In, in_rev in Hx1.
    rewrite List.Forall_forall in Hx, HPr.
    apply Hflip; [by apply HPr|done|by apply Hx].
  - by apply IH.
  - by repeat constructor.
Qed.

(** Sorting by the opposite comparator mirrors the sort: keys run the other
    way round, and within a tie the input order is kept on both sides. *)
Lemma stable_sort_mirror {A} (c c' : A -> A -> Z) (P : A -> Prop) (l : list A) :
  (forall x y, P x -> P y -> (0 < c x y <-> c y x < 0)%Z) ->
  (forall x y z, P x -> P y -> P z -> (c x y <= 0 -> c y z <= 0 -> c x z <= 0)%Z) ->
  (forall x y, c' x y = (- c x y)%Z) ->
  Forall P l ->
  rev (stable_sort c l) = stable_sort c' (rev l).
Proof.
  intros Hflip Htrans Hopp HP.
  assert (Hflip' : forall x y, P x -> P y -> (0 < c' x y <-> c' y x < 0)%Z).
  { intros x y Hx Hy. rewrite !Hopp. pose proof (Hflip y x Hy Hx). lia. }
  assert (Htrans' : forall x y z, P x -> P y -> P z ->
            (c' x y <= 0 -> c' y z <= 0 -> c' x z <= 0)%Z).
  { intros x y z Hx Hy Hz. rewrite !Hopp.
    pose proof (Htrans z y x Hz Hy Hx).
    pose proof (Hflip x y Hx Hy). pose proof (Hflip y x Hy Hx).
    pose proof (Hflip y z Hy Hz). pose proof (Hflip z y Hz Hy).
    pose proof (Hflip x z Hx Hz). pose proof (Hflip z x Hz Hx). lia. }
  assert (HPrev : Forall P (rev l)).
  { eapply Permutation_Forall; [apply Permutation_rev|done]. }
  assert (HPsorted : Forall P (stable_sort c l)) by by apply stable_sort_Forall.
  apply (stable_sorted_unique c' P Hflip').
  - eapply Permutation_Forall; [apply Permutation_rev|done].
  - rewrite <- Permutation_rev, !stable_sort_perm. apply Permutation_rev.
  - apply (StronglySorted_rev_flip c c' P); [|done|by apply (stable_sort_sorted c P)].
    intros x y Hx Hy. rewrite Hopp.
    pose proof (Hflip x y Hx Hy). pose proof (Hflip y x Hy Hx). lia.
  - by apply (stable_sort_sorted c' P).
  - intros z Hz.
    rewrite (stable_sort_stable c' P Hflip' Htrans') by done.
    assert (Hext : forall l0, List.filter (tied c' z) l0 = List.filter (tied c z) l0).
    { intros l0. apply filter_ext. intros y. unfold tied. rewrite Hopp.
      destruct (Z.eqb_spec (- c z y) 0), (Z.eqb_spec (c z y) 0); lia. }
    rewrite !Hext, !filter_rev. f_equal. by apply (stable_sort_stable c P).
Qed.

(** ** Runs of ties *)

Section TieRuns.

Context {A : Type} (c c' : A -> A -> Z) (P : A -> Prop).

Hypothesis c_flip : forall x y, P x -> P y -> (0 < c x y <-> c y x < 0)%Z.
Hypothesis c_trans :
  forall x y z, P x -> P y -> P z -> (c x y <= 0 -> c y z <= 0 -> c x z <= 0)%Z.
Hypothesis c_opp : forall x y, c' x y = (- c x y)%Z.

Lemma concat_tie_runs (l : list A) : concat (tie_runs c l) = l.
Proof.
  induction l as [|x r IH]; [done|]. cbn [tie_runs].
  destruct (tie_runs c r) as [|[|y g] gs]; cbn in *.
  - by rewrite <- IH.
  - by rewrite <- IH.
  - destruct (tied c x y); cbn; by rewrite <- IH.
Qed.

Lemma concat_rev_perm (L : list (list A)) : Permutation (concat (rev L)) (concat L).
Proof.
  induction L as [|g L IH]; [done|].
  cbn [rev concat]. rewrite concat_app. cbn [concat]. rewrite app_nil_r, IH.
  apply Permutation_app_comm.
Qed.

Lemma concat_rev_cons (g : list A) (L : list (list A)) :
  concat (rev (g :: L)) = (concat (rev L) ++ g)%list.
Proof. cbn [rev]. rewrite concat_app. cbn [concat]. by rewrite app_nil_r. Qed.

(** In an ordered sequence a record that is not tied with its successor is
    tied with none of the records behind it. *)
Lemma sorted_not_tied (x y : A) (r : list A) :
  P x -> P y -> Forall P r ->
  before c x y -> c x y <> 0%Z -> Forall (before c y) r ->
  Forall (fun a => c x a <> 0%Z) r.
Proof.
  intros Hx Hy Hr Hxy Hne Hyr. rewrite List.Forall_forall in *.
  intros a Ha Hxa. unfold before in *.
  pose proof (Hyr a Ha) as Hya. pose proof (Hr a Ha) as HPa.
  pose proof (c_trans y a x Hy HPa Hx Hya).
  pose proof (c_flip x a Hx HPa). pose proof (c_flip a x HPa Hx).
  pose proof (c_flip x y Hx Hy). pose proof (c_flip y x Hy Hx). lia.
Qed.

(** No record tied with [x] is tied with [z] when the records of the list
    are not tied with [x]. *)
Lemma filter_tied_none (z x : A) (l : list A) :
  P z -> P x -> Forall P l -> c z x = 0%Z -> Forall (fun a => c x a <> 0%Z) l ->
  List.filter (tied c z) l = [].
Proof.
  intros HPz HPx HP Hzx Hl. induction l as [|a l IH]; [done|].
  apply Forall_cons in HP as [HPa HP], Hl as [Ha Hl]. cbn [List.filter].
  unfold tied at 1. destruct (Z.eqb_spec (c z a) 0) as [Hza|]; [|by apply IH].
  destruct Ha. by apply (tied_trans c P c_flip c_trans z x a).
Qed.

(** The first run of an ordered sequence starts at its head and holds
    records tied with it; the records of the later runs are not. *)
Lemma tie_runs_first (r : list A) :
  Forall P r -> StronglySorted (before c) r ->
  match tie_runs c r with
  | [] => r = []
  | g1 :: gs =>
      exists y g r',
        g1 = y :: g /\ r = y :: r'
        /\ Forall (fun b => c y b = 0%Z) g
        /\ Forall (fun a => c y a <> 0%Z) (concat gs)
  end.
Proof.
  intros HP Hsorted. induction Hsorted as [|x r Hr IH Hx]; [done|].
  apply Forall_cons in HP as [HPx HPr]. specialize (IH HPr).
  pose proof (concat_tie_runs r) as Hconcat.
  cbn [tie_runs]. destruct (tie_runs c r) as [|g1 gs].
  { subst r. exists x, [], []. by repeat split. }
  destruct IH as (y & g & r' & -> & -> & Hg & Hgs).
  apply Forall_cons in HPr as [HPy HPr'], Hx as [Hxy Hxr'].
  apply StronglySorted_inv in Hr as [_ Hyr'].
  assert (Forall P g /\ Forall P (concat gs)) as [HPg HPgs].
  { cbn [concat] in Hconcat. injection Hconcat as Hconcat.
    rewrite <- Hconcat in HPr'. by apply Forall_app in HPr'. }
  unfold tied. destruct (Z.eqb_spec (c x y) 0) as [Htie|Hne].
  - exists x, (y :: g), (y :: r'). split; [done|]. split; [done|]. split.
    + constructor; [done|]. rewrite List.Forall_forall in *. intros b Hb.
      apply (tied_trans c P c_flip c_trans y x b); auto.
      by apply (tied_sym c P c_flip).
    + rewrite List.Forall_forall in *. intros a Ha Hxa.
      apply (Hgs a Ha).
      apply (tied_trans c P c_flip c_trans x y a); auto.
  - exists x, [], (y :: r'). split; [done|]. split; [done|]. split; [done|].
    rewrite Hconcat.
    apply (sorted_not_tied x y (y :: r')); try done; [by constructor|].
    constructor; [|done]. unfold before. pose proof (c_flip y y HPy HPy). lia.
Qed.

(** The runs of an ordered sequence taken in reverse order: ordered the
    other way round, *)
Lemma tie_runs_rev_sorted (l : list A) :
  Forall P l -> StronglySorted (before c) l ->
  StronglySorted (before c') (concat (rev (tie_runs c l))).
Proof.
  intros HP Hsorted. induction Hsorted as [|x r Hr IH Hx]; [constructor|].
  pose proof (tie_runs_first r (Forall_inv_tail HP) Hr) as Hfirst.
  pose proof (concat_tie_runs r) as Hconcat.
  apply Forall_cons in HP as [HPx HPr]. specialize (IH HPr).
  assert (Hbehind : forall a, In a r -> before c' a x).
  { intros a Ha. rewrite List.Forall_forall in Hx, HPr. unfold before. rewrite c_opp.
    pose proof (Hx a Ha) as Hxa. unfold before in Hxa.
    pose proof (c_flip x a HPx (HPr a Ha)). lia. }
  cbn [tie_runs]. destruct (tie_runs c r) as [|g1 gs]; [by repeat constructor|].
  destruct Hfirst as (y & g & r' & -> & -> & Hg & Hgs).
  rewrite concat_rev_cons in IH.
  assert (Hin : forall a, In a (concat (rev gs) ++ y :: g)%list -> In a (y :: r')).
  { intros a Ha. rewrite <- Hconcat. cbn [concat].
    apply in_app_or in Ha as [Ha|Ha]; apply in_or_app; [right|by left].
    eapply Permutation_in; [apply concat_rev_perm|done]. }
  assert (HPg : Forall P (y :: g)).
  { apply List.Forall_forall. intros b Hb. rewrite List.Forall_forall in HPr.
    apply HPr, Hin, in_or_app. by right. }
  apply Forall_cons in HPg as [HPy HPg].
  apply StronglySorted_app in IH as (Hcross & Hleft & Hright).
  unfold tied. destruct (Z.eqb_spec (c x y) 0) as [Htie|Hne].
  - rewrite concat_rev_cons.
    apply StronglySorted_app. split; [|split; [done|]].
    + intros a b Ha Hb. apply elem_of_cons in Hb as [->|Hb]; [|by apply Hcross].
      apply Hbehind, Hin, in_or_app. left. by apply list_elem_of_In.
    + constructor; [done|]. constructor.
      * unfold before. rewrite c_opp. lia.
      * rewrite List.Forall_forall in *. intros b Hb. unfold before. rewrite c_opp.
        rewrite (tied_trans c P c_flip c_trans y x b); auto; [lia|].
        by apply (tied_sym c P c_flip).
  - rewrite !concat_rev_cons.
    apply StronglySorted_app. split; [|split].
    + intros a b Ha%list_elem_of_In ->%list_elem_of_singleton. by apply Hbehind, Hin.
    + apply StronglySorted_app. by split.
    + by repeat constructor.
Qed.

(** and with the records of every tie in the order they had. *)
Lemma tie_runs_rev_stable (z : A) (l : list A) :
  P z -> Forall P l -> StronglySorted (before c) l ->
  List.filter (tied c z) (concat (rev (tie_runs c l))) = List.filter (tied c z) l.
Proof.
  intros HPz HP Hsorted. induction Hsorted as [|x r Hr IH Hx]; [done|].
  pose proof (tie_runs_first r (Forall_inv_tail HP) Hr) as Hfirst.
  pose proof (concat_tie_runs r) as Hconcat.
  apply Forall_cons in HP as [HPx HPr]. specialize (IH HPr).
  cbn [tie_runs]. destruct (tie_runs c r) as [|g1 gs]; [subst r; reflexivity|].
  destruct Hfirst as (y & g & r' & -> & -> & Hg & Hgs).
  rewrite concat_rev_cons in IH.
  apply Forall_cons in Hx as [Hxy Hxr'].
  pose proof HPr as HPyr'. apply Forall_cons in HPr as [HPy HPr'].
  apply StronglySorted_inv in Hr as [_ Hyr'].
  assert (Forall P (concat gs)) as HPgs.
  { cbn [concat] in Hconcat. injection Hconcat as Hconcat.
    rewrite <- Hconcat in HPr'. by apply Forall_app in HPr' as [_ ?]. }
  destruct (tied c x y) eqn:Hxy0; unfold tied in Hxy0;
    [apply Z.eqb_eq in Hxy0 as Htie|apply Z.eqb_neq in Hxy0 as Hne].
  - rewrite concat_rev_cons, List.filter_app. rewrite List.filter_app in IH.
    cbn [List.filter] in *.
    destruct (tied c z x) eqn:Hzx0; [|done].
    unfold tied in Hzx0. apply Z.eqb_eq in Hzx0 as Hzx.
    assert (Hnone : List.filter (tied c z) (concat (rev gs)) = []).
    { apply (filter_tied_none z x); try done.
      - eapply Permutation_Forall; [symmetry; apply concat_rev_perm|done].
      - eapply Permutation_Forall; [symmetry; apply concat_rev_perm|].
        rewrite List.Forall_forall in *. intros a Ha Hxa. apply (Hgs a Ha).
        by apply (tied_trans c P c_flip c_trans x y a); auto. }
    rewrite Hnone in *. cbn [app] in *. by f_equal.
  - rewrite !concat_rev_cons, List.filter_app, IH.
    change (List.filter (tied c z) [x]) with (if tied c z x then [x] else []).
    change (List.filter (tied c z) (x :: y :: r'))
      with (if tied c z x then x :: List.filter (tied c z) (y :: r')
            else List.filter (tied c z) (y :: r')).
    destruct (tied c z x) eqn:Hzx0; [|by rewrite app_nil_r].
    unfold tied in Hzx0. apply Z.eqb_eq in Hzx0 as Hzx.
    rewrite (filter_tied_none z x (y :: r')); try done.
    apply (sorted_not_tied x y (y :: r')); try done.
    constructor; [|done]. unfold before. pose proof (c_flip y y HPy HPy). lia.
Qed.

(** The stable sort by the opposite comparator lists the runs of ties of the
    sort in reverse order, each run as it is. *)
Lemma stable_sort_opposite (l : list A) :
  Forall P l ->
  stable_sort c' l = concat (rev (tie_runs c (stable_sort c l))).
Proof.
  intros HP.
  assert (Hflip' : forall x y, P x -> P y -> (0 < c' x y <-> c' y x < 0)%Z).
  { intros x y Hx Hy. rewrite !c_opp. pose proof (c_flip y x Hy Hx). lia. }
  assert (Htrans' : forall x y z, P x -> P y -> P z ->
            (c' x y <= 0 -> c' y z <= 0 -> c' x z <= 0)%Z).
  { intros x y z Hx Hy Hz. rewrite !c_opp.
    pose proof (c_trans z y x Hz Hy Hx).
    pose proof (c_flip x y Hx Hy). pose proof (c_flip y x Hy Hx).
    pose proof (c_flip y z Hy Hz). pose proof (c_flip z y Hz Hy).
    pose proof (c_flip x z Hx Hz). pose proof (c_flip z x Hz Hx). lia. }
  assert (HPsorted : Forall P (stable_sort c l)) by by apply stable_sort_Forall.
  pose proof (stable_sort_sorted c P c_flip c_trans l HP) as Hsorted.
  apply (stable_sorted_unique c' P Hflip').
  - by apply stable_sort_Forall.
  - rewrite concat_rev_perm, concat_tie_runs, !stable_sort_perm. done.
  - by apply (stable_sort_sorted c' P).
  - by apply tie_runs_rev_sorted.
  - intros z Hz.
    assert (Hext : forall l0, List.filter (tied c' z) l0 = List.filter (tied c z) l0).
    { intros l0. apply filter_ext. intros y. unfold tied. rewrite c_opp.
      destruct (Z.eqb_spec (- c z y) 0), (Z.eqb_spec (c z y) 0); lia. }
    rewrite (stable_sort_stable c' P Hflip' Htrans') by done.
    rewrite !Hext, tie_runs_rev_stable by done.
    symmetry. by apply (stable_sort_stable c P).
Qed.

End TieRuns.

(** ** sortTasks *)

Lemma nonNaN (n : number) : isNaN n = false -> n = Fin (sort_compare n).
Proof. by destruct n. Qed.

Lemma compareTasks_Ok (sortBy sortOrder : string) (a b : obj) :
  sortable sortBy a = true -> sortable sortBy b = true ->
  exists v, compareTasks sortBy sortOrder a b = Ok v.
Proof.
  unfold sortable, compareTasks. intros Ha Hb.
  destruct (String.eqb sortBy SORT_CREATED); [by eexists|].
  destruct (String.eqb sortBy SORT_PRIORITY); [by eexists|].
  destruct (String.eqb sortBy SORT_PROGRESS); [by eexists|].
  destruct (String.eqb sortBy SORT_TITLE); [|by eexists].
  apply typeof_string in Ha as [ta ->], Hb as [tb ->]. by eexists.
Qed.

(** The descending comparison is the ascending one negated; every sort
    order other than [asc] is descending. *)
Lemma comparison_order (sortBy sortOrder : string) (a b : obj) :
  comparison sortBy sortOrder a b =
    if String.eqb sortOrder ASC then comparison sortBy ASC a b
    else (- comparison sortBy ASC a b)%Z.
Proof.
  unfold comparison, compareTasks.
  match goal with |- context [mbind _ ?m] => destruct m as [[|z]|e] end;
    simpl; destruct (String.eqb sortOrder ASC); simpl; lia.
Qed.

Section Sorting.

(** [localeCompare] is a consistent comparator, as ECMA-402 asks of a
    collation. *)
Hypothesis localeCompare_flip :
  forall s t, (0 < localeCompare s t <-> localeCompare t s < 0)%Z.
Hypothesis localeCompare_trans :
  forall s t u,
    (localeCompare s t <= 0 -> localeCompare t u <= 0 -> localeCompare s u <= 0)%Z.

(** On sortable records the ascending comparison is a difference of keys,
    or the collation of two texts. *)
Lemma ascending_form (sortBy : string) :
  (exists key : obj -> Z, forall a b,
      sortable sortBy a = true -> sortable sortBy b = true ->
      comparison sortBy ASC a b = (key a - key b)%Z)
  \/ (exists text : obj -> string, forall a b,
      sortable sortBy a = true -> sortable sortBy b = true ->
      comparison sortBy ASC a b = localeCompare (text a) (text b)).
Proof.
  unfold comparison, compareTasks, sortable.
  destruct (String.eqb sortBy SORT_CREATED).
  { left. exists (fun o => sort_compare (new_Date (get o "createdAt"))).
    intros a b Ha%negb_true_iff%nonNaN Hb%negb_true_iff%nonNaN.
    rewrite Ha, Hb. reflexivity. }
  destruct (String.eqb sortBy SORT_PRIORITY).
  { left. exists (fun o => sort_compare (PRIORITY_ORDER (get o "priority"))).
    intros a b Ha%negb_true_iff%nonNaN Hb%negb_true_iff%nonNaN.
    rewrite Ha, Hb. reflexivity. }
  destruct (String.eqb sortBy SORT_PROGRESS).
  { left. exists (fun o => if truthy (get o "completed") then 1%Z else 0%Z).
    intros a b _ _. reflexivity. }
  destruct (String.eqb sortBy SORT_TITLE).
  { right.
    exists (fun o => match get o "title" with PStr s => toLowerCase s | _ => EmptyString end).
    intros a b [ta ->]%typeof_string [tb ->]%typeof_string. reflexivity. }
  left. exists (fun _ => 0%Z). intros a b _ _. reflexivity.
Qed.

Lemma comparison_flip (sortBy sortOrder : string) (a b : obj) :
  sortable sortBy a = true -> sortable sortBy b = true ->
  (0 < comparison sortBy sortOrder a b <-> comparison sortBy sortOrder b a < 0)%Z.
Proof.
  intros Ha Hb. rewrite (comparison_order _ _ a b), (comparison_order _ _ b a).
  destruct (ascending_form sortBy) as [[key Hkey]|[text Htext]].
  - rewrite !Hkey by done. destruct (String.eqb sortOrder ASC); lia.
  - rewrite !Htext by done.
    pose proof (localeCompare_flip (text a) (text b)).
    pose proof (localeCompare_flip (text b) (text a)).
    destruct (String.eqb sortOrder ASC); lia.
Qed.

Lemma comparison_trans (sortBy sortOrder : string) (a b d : obj) :
  sortable sortBy a = true -> sortable sortBy b = true -> sortable sortBy d = true ->
  (comparison sortBy sortOrder a b <= 0 -> comparison sortBy sortOrder b d <= 0 ->
   comparison sortBy sortOrder a d <= 0)%Z.
Proof.
  intros Ha Hb Hd.
  rewrite (comparison_order _ _ a b), (comparison_order _ _ b d), (comparison_order _ _ a d).
  destruct (ascending_form sortBy) as [[key Hkey]|[text Htext]].
  - rewrite !Hkey by done. destruct (String.eqb sortOrder ASC); lia.
  - rewrite !Htext by done.
    pose proof (localeCompare_trans (text a) (text b) (text d)).
    pose proof (localeCompare_trans (text d) (text b) (text a)).
    pose proof (localeCompare_flip (text a) (text b)).
    pose proof (localeCompare_flip (text b) (text a)).
    pose proof (localeCompare_flip (text b) (text d)).
    pose proof (localeCompare_flip (text d) (text b)).
    pose proof (localeCompare_flip (text a) (text d)).
    pose proof (localeCompare_flip (text d) (text a)).
    destruct (String.eqb sortOrder ASC); lia.
Qed.

(** On sortable records [sortTasks] returns the stable sort by
    [comparison]. *)
Lemma sortTasks_stable_sort (ts : list obj) (sortBy sortOrder : string) :
  Forall (fun task => sortable sortBy task = true) ts ->
  sortTasks (VArr ts) sortBy sortOrder = Ok (stable_sort (comparison sortBy sortOrder) ts).
Proof.
  intros Hsortable. cbn [sortTasks]. apply Array_sort_pure.
  intros a b Ha Hb. rewrite Forall_forall in Hsortable.
  destruct (compareTasks_Ok sortBy sortOrder a b) as [v Hv]; [by apply Hsortable..|].
  exists v. split; [done|]. unfold comparison. by rewrite Hv.
Qed.

(** C8: on records the comparator of [sortBy] can order, [sortTasks]
    returns a permutation of the input that is ordered by the comparison and
    stable: the records that compare equal to a given record come in their
    input order.  An input that is already ordered comes back as it is, and
    so does the result when sorted again.  The opposite order negates every
    comparison: sorting the same input in the opposite order lists the runs
    of ties of the result in reverse order, each run as it is, and sorting
    the reversed input in the opposite order gives the reversed result.  The
    sort works on a copy: the array passed in, and every other array of the
    heap, is left as it was. *)
Theorem sortTasks_stable (ts : list obj) (sortBy sortOrder : string) :
  Forall (fun task => sortable sortBy task = true) ts ->
  exists sorted,
    sortTasks (VArr ts) sortBy sortOrder = Ok sorted
    /\ Permutation sorted ts
    /\ StronglySorted (fun a b => comparison sortBy sortOrder a b <= 0)%Z sorted
    /\ (forall a, sortable sortBy a = true ->
          List.filter (fun b => comparison sortBy sortOrder a b =? 0)%Z sorted
          = List.filter (fun b => comparison sortBy sortOrder a b =? 0)%Z ts)
    /\ (StronglySorted (fun a b => comparison sortBy sortOrder a b <= 0)%Z ts -> sorted = ts)
    /\ sortTasks (VArr sorted) sortBy sortOrder = Ok sorted
    /\ (forall opposite,
          String.eqb opposite ASC = negb (String.eqb sortOrder ASC) ->
          (forall a b, comparison sortBy opposite a b = - comparison sortBy sortOrder a b)%Z
          /\ sortTasks (VArr ts) sortBy opposite
             = Ok (concat (rev (tie_runs (comparison sortBy sortOrder) sorted)))
          /\ sortTasks (VArr (rev ts)) sortBy opposite = Ok (rev sorted))
    /\ (forall (h : heap) (r : positive),
          h !! r = Some ts ->
          exists copy h',
            sortTasks_in h r sortBy sortOrder = (Ok copy, h')
            /\ copy <> r
            /\ h' !! copy = Some sorted
            /\ h' !! r = Some ts
            /\ forall r', r' <> copy -> h' !! r' = h !! r').
Proof.
  intros Hsortable.
  set (c := comparison sortBy sortOrder).
  set (P := fun task => sortable sortBy task = true).
  assert (Hflip : forall x y, P x -> P y -> (0 < c x y <-> c y x < 0)%Z)
    by (intros; by apply comparison_flip).
  assert (Htrans : forall x y z, P x -> P y -> P z ->
            (c x y <= 0 -> c y z <= 0 -> c x z <= 0)%Z)
    by (intros x y z ???; by apply comparison_trans).
  pose proof (sortTasks_stable_sort ts sortBy sortOrder Hsortable) as Hsort.
  exists (stable_sort c ts).
  split; [done|]. split; [apply stable_sort_perm|].
  split; [by apply (stable_sort_sorted c P)|].
  split; [intros a Ha; by apply (stable_sort_stable c P)|].
  split; [apply stable_sort_sorted_id|].
  split.
  { rewrite sortTasks_stable_sort by by apply stable_sort_Forall.
    f_equal. apply stable_sort_sorted_id. by apply (stable_sort_sorted c P). }
  split.
  - intros opposite Hopposite.
    assert (Hopp : forall a b,
              comparison sortBy opposite a b = (- comparison sortBy sortOrder a b)%Z).
    { intros a b. rewrite (comparison_order _ opposite), (comparison_order _ sortOrder).
      rewrite Hopposite. destruct (String.eqb sortOrder ASC); simpl; lia. }
    split; [done|]. split.
    { rewrite sortTasks_stable_sort by done. f_equal.
      by apply (stable_sort_opposite c _ P). }
    rewrite sortTasks_stable_sort.
    2:{ eapply Permutation_Forall; [apply Permutation_rev|done]. }
    f_equal. symmetry. by apply (stable_sort_mirror c _ P).
  - intros h r Hr. unfold sortTasks_in, alloc. rewrite Hr, Hsort.
    pose proof (is_fresh (dom h)) as Hfresh.
    set (copy := fresh (dom h)) in *.
    assert (copy <> r) as Hne.
    { intros ->. apply Hfresh. apply elem_of_dom. by eexists. }
    exists copy, (<[copy := stable_sort c ts]> (<[copy := ts]> h)).
    split; [done|]. split; [done|].
    split; [by rewrite lookup_insert_eq|].
    split; [by rewrite !lookup_insert_ne|].
    intros r' Hr'. by rewrite !lookup_insert_ne.
Qed.

End Sorting.

(** ** JSON: parsing what was printed *)

Lemma append_cons (x : ascii) (a b : string) : String x a +:+ b = String x (a +:+ b).
Proof. reflexivity. Qed.

Lemma append_assoc (a b d : string) : (a +:+ b) +:+ d = a +:+ (b +:+ d).
Proof. induction a as [|x a IH]; [done|]. rewrite !append_cons. by f_equal. Qed.

Lemma length_append (a b : string) :
  String.length (a +:+ b) = String.length a + String.length b.
Proof.
  induction a as [|x a IH]; [done|]. rewrite append_cons. cbn [String.length Nat.add]. by rewrite IH.
Qed.

Lemma parse_chars_escape_char (c : ascii) (t : string) :
  parse_chars (escape_char c +:+ t) = cons_char c (parse_chars t).
Proof. destruct c as [[] [] [] [] [] [] [] []]; reflexivity. Qed.

Lemma parse_chars_escape (s rest : string) :
  parse_chars (escape s +:+ String quote_char rest) = Some (s, rest).
Proof.
  induction s as [|c s IH]; [done|].
  cbn [escape]. rewrite append_assoc, parse_chars_escape_char, IH. done.
Qed.

Lemma QuoteJSONString_append (s t : string) :
  QuoteJSONString s +:+ t = String quote_char (escape s +:+ String quote_char t).
Proof. unfold QuoteJSONString. by rewrite append_cons, append_assoc. Qed.

Lemma parse_prim_print (p : prim) (rest : string) :
  p <> PUndefined -> parse_prim (print_prim p +:+ rest) = Some (p, rest).
Proof.
  destruct p as [| |[]|s]; intros Hp; try done.
  cbn [print_prim]. rewrite QuoteJSONString_append.
  cbn [parse_prim]. change (Ascii.eqb quote_char quote_char) with true. cbn iota.
  by rewrite parse_chars_escape.
Qed.

Lemma skip_ws_print_prim (p : prim) (t : string) :
  skip_ws (print_prim p +:+ t) = print_prim p +:+ t.
Proof. by destruct p as [| |[]|s]. Qed.

Lemma print_member_append (k : string) (v : prim) (t : string) :
  print_member (k, v) +:+ t
  = String quote_char (escape k +:+ String quote_char (String ":" (print_prim v +:+ t))).
Proof.
  unfold print_member. cbn [fst snd].
  by rewrite append_assoc, QuoteJSONString_append, append_assoc.
Qed.

(** One member, then whatever follows it. *)
Lemma parse_members_step (fuel : nat) (k : string) (v : prim) (t : string) :
  v <> PUndefined ->
  parse_members (S fuel) (print_member (k, v) +:+ t) =
    match skip_ws t with
    | EmptyString => None
    | String c2 r4 =>
        if Ascii.eqb c2 "," then
          '(ms, r5) ← parse_members fuel r4; Some ((k, v) :: ms, r5)
        else if Ascii.eqb c2 "}" then Some ([(k, v)], r4)
        else None
    end.
Proof.
  intros Hv. rewrite print_member_append. cbn [parse_members].
  change (skip_ws (String quote_char ?x)) with (String quote_char x).
  cbn iota. change (Ascii.eqb quote_char quote_char) with true. cbn [negb].
  rewrite parse_chars_escape. cbn [mbind option_bind].
  change (skip_ws (String ":" ?x)) with (String ":"%char x). cbn iota.
  change (Ascii.eqb ":" ":") with true. cbn [negb].
  rewrite skip_ws_print_prim, parse_prim_print by done. done.
Qed.

Lemma parse_members_print (ms : list (string * prim)) (fuel : nat) (rest : string) :
  ms <> [] -> length ms <= fuel ->
  Forall (fun kv => kv.2 <> PUndefined) ms ->
  parse_members fuel (join "," (print_member <$> ms) +:+ String "}" rest) = Some (ms, rest).
Proof.
  revert fuel. induction ms as [|[k v] ms IH]; intros fuel Hne Hlen Hvals; [done|].
  destruct fuel as [|fuel]; [simpl in Hlen; lia|].
  apply Forall_cons in Hvals as [Hv Hvals]. cbn [snd] in Hv.
  destruct ms as [|kv ms].
  - cbn [fmap list_fmap join]. by rewrite parse_members_step.
  - change (join "," (print_member <$> (k, v) :: kv :: ms))
      with (print_member (k, v) +:+ "," +:+ join "," (print_member <$> kv :: ms)).
    rewrite !append_assoc, parse_members_step by done.
    rewrite append_cons.
    change (skip_ws (String "," ?x)) with (String ","%char x). cbn iota.
    change (Ascii.eqb "," ",") with true. cbn iota.
    change (EmptyString +:+ ?x) with x.
    rewrite IH; [done|done| |done]. simpl in *. lia.
Qed.

Lemma serializable_members (o : obj) :
  serializable o -> Forall (fun kv => kv.2 <> PUndefined) (map_to_list o).
Proof.
  intros Ho. apply Forall_forall. intros [k v] Hkv%elem_of_map_to_list. by apply (Ho k).
Qed.

Lemma without_undefined_serializable (o : obj) : serializable (without_undefined o).
Proof. intros k v [_ Hv]%map_lookup_filter_Some. exact Hv. Qed.

Lemma without_undefined_id (o : obj) : serializable o -> without_undefined o = o.
Proof. intros Ho. apply map_filter_id. intros k v Hkv. by apply (Ho k). Qed.

(** Reading a property of the record JSON writes gives what the record
    gives. *)
Lemma get_without_undefined (o : obj) (k : string) : get (without_undefined o) k = get o k.
Proof.
  unfold get, without_undefined. rewrite map_lookup_filter.
  destruct (o !! k) as [[| |b|s]|]; try done.
Qed.

Lemma print_member_head (kv : string * prim) (t : string) :
  exists r, print_member kv +:+ t = String quote_char r.
Proof. destruct kv as [k v]. rewrite print_member_append. by eexists. Qed.

Lemma print_member_length (kv : string * prim) : 1 <= String.length (print_member kv).
Proof.
  unfold print_member, QuoteJSONString. rewrite append_cons. cbn [String.length]. lia.
Qed.

Lemma join_head (f : string -> Prop) (sep : string) (l : list string) (t : string) :
  l <> [] ->
  (forall x t', x ∈ l -> f (x +:+ t')) ->
  f (join sep l +:+ t).
Proof.
  destruct l as [|x [|y l]]; intros Hne Hf; [done| |].
  - apply Hf. by left.
  - change (join sep (x :: y :: l)) with (x +:+ sep +:+ join sep (y :: l)).
    rewrite append_assoc. apply Hf. by left.
Qed.

Lemma length_join (sep : string) (l : list string) :
  Forall (fun x => 1 <= String.length x) l -> length l <= String.length (join sep l).
Proof.
  induction 1 as [|x [|y l] Hx _ IH]; [done|simpl; lia|].
  change (join sep (x :: y :: l)) with (x +:+ sep +:+ join sep (y :: l)).
  rewrite !length_append. simpl in *. lia.
Qed.

Lemma parse_object_members (r : string) :
  parse_object (String quote_char r) =
    '(ms, rest) ← parse_members (String.length (String quote_char r)) (String quote_char r);
    Some (list_to_map (reverse ms), rest).
Proof. reflexivity. Qed.

Lemma parse_object_print (o : obj) (rest : string) :
  serializable o ->
  parse_object (join "," (print_member <$> map_to_list o) +:+ String "}" rest)
  = Some (o, rest).
Proof.
  intros Ho.
  destruct (map_to_list o) as [|kv ms] eqn:Hms.
  { apply map_to_list_empty_iff in Hms as ->. reflexivity. }
  rewrite <- Hms.
  assert (Hne : map_to_list o <> []) by by rewrite Hms.
  set (s := join "," (print_member <$> map_to_list o) +:+ String "}" rest).
  assert (exists r, s = String quote_char r) as [r Hr].
  { apply (join_head (fun x => exists r, x = String quote_char r)).
    - by destruct (map_to_list o).
    - intros x t' (kv' & -> & _)%list_elem_of_fmap. apply print_member_head. }
  rewrite Hr, parse_object_members, <- Hr. unfold s at 2.
  rewrite parse_members_print; [|done| |by apply serializable_members].
  - cbn [mbind option_bind]. f_equal. f_equal.
    rewrite <- (list_to_map_to_list o) at 2. symmetry.
    apply list_to_map_proper; [apply NoDup_fst_map_to_list|].
    symmetry. apply reverse_Permutation.
  - unfold s. rewrite length_append.
    etrans; [|apply Nat.le_add_r].
    rewrite <- (length_fmap print_member). apply length_join, Forall_forall.
    intros x (kv' & -> & _)%list_elem_of_fmap. apply print_member_length.
Qed.

Lemma SerializeJSONObject_append (o : obj) (t : string) :
  SerializeJSONObject o +:+ t
  = String "{"
      (join "," (print_member <$> map_to_list (without_undefined o)) +:+ String "}" t).
Proof.
  unfold SerializeJSONObject. by rewrite !append_assoc.
Qed.

Lemma parse_elements_step (fuel : nat) (o : obj) (t : string) :
  parse_elements (S fuel) (SerializeJSONObject o +:+ t) =
    match skip_ws t with
    | EmptyString => None
    | String c1 r2 =>
        if Ascii.eqb c1 "," then
          '(os, r3) ← parse_elements fuel r2; Some (without_undefined o :: os, r3)
        else if Ascii.eqb c1 "]" then Some ([without_undefined o], r2)
        else None
    end.
Proof.
  rewrite SerializeJSONObject_append. cbn [parse_elements].
  change (skip_ws (String "{" ?x)) with (String "{"%char x). cbn iota.
  change (Ascii.eqb "{" "{") with true. cbn [negb].
  by rewrite parse_object_print by apply without_undefined_serializable.
Qed.

Lemma parse_elements_print (ts : list obj) (fuel : nat) (rest : string) :
  ts <> [] -> length ts <= fuel ->
  parse_elements fuel (join "," (SerializeJSONObject <$> ts) +:+ String "]" rest)
  = Some (without_undefined <$> ts, rest).
Proof.
  revert fuel. induction ts as [|o ts IH]; intros fuel Hne Hlen; [done|].
  destruct fuel as [|fuel]; [simpl in Hlen; lia|].
  destruct ts as [|o' ts].
  - cbn [fmap list_fmap join]. by rewrite parse_elements_step.
  - change (join "," (SerializeJSONObject <$> o :: o' :: ts))
      with (SerializeJSONObject o +:+ "," +:+ join "," (SerializeJSONObject <$> o' :: ts)).
    rewrite !append_assoc, parse_elements_step.
    rewrite append_cons.
    change (skip_ws (String "," ?x)) with (String ","%char x). cbn iota.
    change (Ascii.eqb "," ",") with true. cbn iota.
    change (EmptyString +:+ ?x) with x.
    rewrite IH; [done|done|]. simpl in *. lia.
Qed.

Lemma parse_array_elements (r : string) :
  parse_array (String "{" r)
  = parse_elements (String.length (String "{"%char r)) (String "{" r).
Proof. reflexivity. Qed.

(** [JSON.parse] reads back the array [JSON.stringify] wrote, less the
    properties that held [undefined]. *)
Lemma JSON_parse_stringify (ts : list obj) :
  JSON_parse (SerializeJSONArray ts) = Ok (VArr (without_undefined <$> ts)).
Proof.
  unfold SerializeJSONArray, JSON_parse, parse_value.
  rewrite append_cons. change (EmptyString +:+ ?x) with x.
  change (skip_ws (String "[" ?x)) with (String "["%char x). cbn iota.
  change (Ascii.eqb "[" "[") with true. cbn iota.
  destruct ts as [|o ts]; [reflexivity|].
  set (s := join "," (SerializeJSONObject <$> o :: ts) +:+ "]").
  assert (exists r, s = String "{" r) as [r Hr].
  { apply (join_head (fun x => exists r, x = String "{" r)); [done|].
    intros x t' (o' & -> & _)%list_elem_of_fmap.
    rewrite SerializeJSONObject_append. by eexists. }
  rewrite Hr, parse_array_elements, <- Hr. unfold s at 2.
  rewrite parse_elements_print; [done|done|].
  unfold s. rewrite length_append. etrans; [|apply Nat.le_add_r].
  rewrite <- (length_fmap SerializeJSONObject). apply length_join, Forall_forall.
  intros x (o' & -> & _)%list_elem_of_fmap.
  unfold SerializeJSONObject. rewrite append_cons. cbn [String.length]. lia.
Qed.

(** ** saveTasks and loadTasks *)

(** What [loadTasks] returns after a successful [saveTasks] of any array of
    records: the records in their order, each with the fields it had, a
    property that held [undefined] reading [undefined] as before. *)
Lemma loadTasks_saveTasks_any (ts : list obj) (store : storage) :
  (saveTasks (VArr ts) store).1 = true ->
  loadTasks (saveTasks (VArr ts) store).2 = without_undefined <$> ts.
Proof.
  unfold saveTasks, setItem. cbn [isArray negb JSON_stringify].
  destruct (setItem_accepts store STORAGE_KEY (SerializeJSONArray ts)); [|done].
  intros _. cbn [snd]. unfold loadTasks, getItem. rewrite lookup_insert_eq.
  rewrite JSON_parse_stringify.
  by unfold SerializeJSONArray.
Qed.

(** C7: when [saveTasks] reports success on an array of records none of
    whose properties holds [undefined], [loadTasks] on the store it leaves
    returns that array: the same records, every field of each, in the same
    order. *)
Theorem loadTasks_saveTasks (ts : list obj) (store : storage) :
  Forall serializable ts ->
  (saveTasks (VArr ts) store).1 = true ->
  loadTasks (saveTasks (VArr ts) store).2 = ts.
Proof.
  intros Hts Hsaved. rewrite loadTasks_saveTasks_any by done. clear Hsaved.
  induction Hts as [|o ts Ho _ IH]; [done|].
  cbn [fmap list_fmap]. f_equal; [by apply without_undefined_id|done].
Qed.

(** ** validateTask: when a record passes, and what is reported *)

Lemma validateTask_no_errors (o : obj) :
  errors (validateTask (VObj o)) = [] <->
    negb (truthy (get o "title")) || negb (String.eqb (typeof (get o "title")) "string")
      || blank (get o "title") = false
    /\ truthy (get o "title") && exceeds (length_of (get o "title")) 100 = false
    /\ truthy (get o "description")
         && negb (String.eqb (typeof (get o "description")) "string") = false
    /\ truthy (get o "description") && exceeds (length_of (get o "description")) 500 = false
    /\ negb (truthy (get o "priority"))
         || negb (bool_decide (get o "priority" ∈ [PStr "High"; PStr "Medium"; PStr "Low"]))
         = false
    /\ negb (String.eqb (typeof (get o "completed")) "boolean") = false
    /\ truthy (get o "createdAt") && isNaN (new_Date (get o "createdAt")) = false.
Proof.
  pose proof (validateTask_errors o) as Herrors. split.
  - intros Hnil. rewrite Hnil in Herrors. cbn [In] in Herrors.
    repeat split; apply not_true_is_false; intros Hc.
    + apply (Herrors title_required). left. by split.
    + apply (Herrors title_too_long). right. left. by split.
    + apply (Herrors description_not_string). do 2 right. left. by split.
    + apply (Herrors description_too_long). do 3 right. left. by split.
    + apply (Herrors priority_invalid). do 4 right. left. by split.
    + apply (Herrors completed_not_boolean). do 5 right. left. by split.
    + apply (Herrors createdAt_invalid). do 6 right. by split.
  - intros (H1 & H2 & H3 & H4 & H5 & H6 & H7).
    destruct (errors (validateTask (VObj o))) as [|x l]; [done|].
    destruct (proj1 (Herrors x) (or_introl eq_refl))
      as [[H _]|[[H _]|[[H _]|[[H _]|[[H _]|[[H _]|[H _]]]]]]]; congruence.
Qed.

Lemma validateTask_isValid_iff (o : obj) :
  isValid (validateTask (VObj o)) = true <->
    (exists t, get o "title" = PStr t /\ trim t <> EmptyString /\ String.length t <= 100)
    /\ (truthy (get o "description") = false
        \/ exists d, get o "description" = PStr d /\ String.length d <= 500)
    /\ (get o "priority" = PStr "High" \/ get o "priority" = PStr "Medium"
        \/ get o "priority" = PStr "Low")
    /\ (exists b, get o "completed" = PBool b)
    /\ (truthy (get o "createdAt") = false \/ isNaN (new_Date (get o "createdAt")) = false).
Proof using Date_parse.
  clear localeCompare setItem_accepts.
  rewrite validateTask_isValid, validateTask_no_errors.
  assert (Hblank : forall t, (String.length (trim t) =? 0) = false <-> trim t <> EmptyString).
  { intros t. rewrite Nat.eqb_neq. destruct (trim t); simpl; split; intros H; (congruence || lia). }
  assert (Hlen : forall n m, (n <? m) = false <-> m <= n).
  { intros n m. rewrite Nat.ltb_ge. done. }
  split.
  - intros (H1 & H2 & H3 & H4 & H5 & H6 & H7).
    split; [|split; [|split; [|split]]].
    + destruct (get o "title") as [| |b|[|c t]]; try discriminate H1.
      { destruct b; discriminate H1. }
      exists (String c t). split; [done|].
      split; [by apply Hblank|by apply Hlen].
    + destruct (get o "description") as [| |[]|d]; try (by left); try discriminate H3.
      destruct d as [|c d]; [by left|]. right. exists (String c d). split; [done|].
      by apply Hlen.
    + destruct (truthy (get o "priority")); [|discriminate H5]. cbn [negb orb] in H5.
      apply negb_false_iff, bool_decide_eq_true in H5.
      rewrite !elem_of_cons in H5. destruct H5 as [?|[?|[?|H5]]]; auto.
      by apply elem_of_nil in H5.
    + destruct (get o "completed") as [| |b|s]; try discriminate H6. by exists b.
    + destruct (truthy (get o "createdAt")); [by right|by left].
  - intros ((t & Htitle & Htrim & Hlength) & Hdescription & Hpriority & [b Hcompleted]
            & HcreatedAt).
    rewrite Htitle, Hcompleted.
    split; [|split; [|split; [|split; [|split; [|split]]]]].
    + destruct t as [|c t]; [done|].
      cbn [truthy String.eqb negb typeof orb blank].
      change (String.eqb "string" "string") with true. cbn [negb orb]. by apply Hblank.
    + cbn [length_of exceeds]. apply andb_false_intro2. by apply Hlen.
    + destruct Hdescription as [->|(d & -> & _)]; [done|]. apply andb_false_intro2. done.
    + destruct Hdescription as [->|(d & -> & Hd)]; [done|]. apply andb_false_intro2.
      by apply Hlen.
    + assert (get o "priority" ∈ [PStr "High"; PStr "Medium"; PStr "Low"]) as Hin.
      { rewrite !elem_of_cons. tauto. }
      rewrite (bool_decide_eq_true_2 _ Hin).
      by destruct Hpriority as [->|[->| ->]].
    + done.
    + destruct HcreatedAt as [->| ->]; [done|]. apply andb_false_r.
Qed.

(** X1: A record passes validation exactly when its title is a string that is
    not blank and has at most 100 code units, its description is falsy or a
    string of at most 500, its priority is one of the three, [completed] is a
    boolean, and [createdAt] is falsy or denotes a date. *)
Theorem validateTask_accepts (o : obj) :
  isValid (validateTask (VObj o)) = true <->
    (exists t, get o "title" = PStr t /\ trim t <> EmptyString /\ String.length t <= 100)
    /\ (truthy (get o "description") = false
        \/ exists d, get o "description" = PStr d /\ String.length d <= 500)
    /\ (get o "priority" = PStr "High" \/ get o "priority" = PStr "Medium"
        \/ get o "priority" = PStr "Low")
    /\ (exists b, get o "completed" = PBool b)
    /\ (truthy (get o "createdAt") = false \/ isNaN (new_Date (get o "createdAt")) = false).
Proof using Date_parse. apply validateTask_isValid_iff. Qed.

(** X2: What is not a record does not pass: a falsy value gets the one error
    that asks for a task object, and a truthy primitive or an array, whose
    five fields all read [undefined], gets the three errors of the fields that
    are required. *)
Theorem validateTask_rejects_non_records (v : value) :
  (forall o, v <> VObj o) ->
  isValid (validateTask v) = false
  /\ errors (validateTask v)
     = if truthy_value v then [title_required; priority_invalid; completed_not_boolean]
       else [task_required].
Proof using Date_parse.
  clear localeCompare setItem_accepts.
  intros Hv. destruct v as [p|o|ts]; [| by destruct (Hv o) |by split].
  destruct p as [| |[]|[|c s]]; by split.
Qed.

(** The errors come in the order of the checks, each at most once. *)
Theorem validateTask_errors_in_order (o : obj) :
  sublist (errors (validateTask (VObj o)))
    [title_required; title_too_long; description_not_string; description_too_long;
     priority_invalid; completed_not_boolean; createdAt_invalid]
  /\ NoDup (errors (validateTask (VObj o))).
Proof using Date_parse.
  clear localeCompare setItem_accepts.
  assert (Hpush : forall c msg l l', sublist l l' -> sublist (push_if c msg l) (l' ++ [msg])%list).
  { intros c msg l l' Hsub. unfold push_if. destruct c.
    - by apply sublist_app.
    - by apply sublist_inserts_r. }
  assert (Hsub : sublist (errors (validateTask (VObj o)))
            [title_required; title_too_long; description_not_string; description_too_long;
             priority_invalid; completed_not_boolean; createdAt_invalid]).
  { unfold validateTask. cbn [truthy_value negb errors field].
    apply (Hpush _ _ _ [_; _; _; _; _; _]), (Hpush _ _ _ [_; _; _; _; _]),
      (Hpush _ _ _ [_; _; _; _]), (Hpush _ _ _ [_; _; _]), (Hpush _ _ _ [_; _]),
      (Hpush _ _ _ [_]), (Hpush _ _ _ []). constructor. }
  split; [done|].
  eapply sublist_NoDup; [|exact Hsub].
  apply (bool_decide_unpack _). vm_compute. exact I.
Qed.

Lemma validateTask_reported (o : obj) :
  let reported msg := In msg (errors (validateTask (VObj o))) in
  (reported title_required <->
     negb (truthy (get o "title")) || negb (String.eqb (typeof (get o "title")) "string")
       || blank (get o "title") = true)
  /\ (reported description_not_string <->
        truthy (get o "description")
          && negb (String.eqb (typeof (get o "description")) "string") = true)
  /\ (reported description_too_long <->
        truthy (get o "description") && exceeds (length_of (get o "description")) 500 = true)
  /\ (reported priority_invalid <->
        negb (truthy (get o "priority"))
          || negb (bool_decide (get o "priority" ∈ [PStr "High"; PStr "Medium"; PStr "Low"]))
          = true)
  /\ (reported createdAt_invalid <->
        truthy (get o "createdAt") && isNaN (new_Date (get o "createdAt")) = true).
Proof.
  cbv zeta. rewrite !validateTask_errors.
  repeat split;
    try (intros [[H M]|[[H M]|[[H M]|[[H M]|[[H M]|[[H M]|[H M]]]]]]];
         try discriminate M; exact H);
    intros H; tauto.
Qed.

(** X3: The messages about the title, the description, the priority and the
    creation date: each is reported exactly when its check fails.  A title is
    asked for unless it is a string with something other than white space in
    it; a priority has to be one of the three as they are written. *)
Theorem validateTask_reports (o : obj) :
  let reported msg := In msg (errors (validateTask (VObj o))) in
  (reported title_required <->
     forall t, get o "title" = PStr t -> trim t = EmptyString)
  /\ (reported description_not_string <->
        truthy (get o "description") = true /\ typeof (get o "description") <> "string")
  /\ (reported description_too_long <->
        exists d, get o "description" = PStr d /\ 500 < String.length d)
  /\ (reported priority_invalid <->
        get o "priority" ∉ [PStr "High"; PStr "Medium"; PStr "Low"])
  /\ (reported createdAt_invalid <->
        truthy (get o "createdAt") = true /\ new_Date (get o "createdAt") = NaN).
Proof.
  destruct (validateTask_reported o) as (H1 & H2 & H3 & H4 & H5). cbv zeta in *.
  rewrite H1, H2, H3, H4, H5. clear H1 H2 H3 H4 H5.
  split; [|split; [|split; [|split]]].
  - destruct (get o "title") as [| |b|[|c t]].
    + split; [intros _ t' [=]|done].
    + split; [intros _ t' [=]|done].
    + destruct b; (split; [intros _ t' [=]|done]).
    + split; [by intros _ t' [= <-]|done].
    + change (negb (truthy (PStr (String c t)))
              || negb (String.eqb (typeof (PStr (String c t))) "string")) with false.
      cbn [orb blank]. rewrite Nat.eqb_eq. split.
      * intros H t' [= <-]. by destruct (trim (String c t)).
      * intros H. by rewrite (H _ eq_refl).
  - rewrite andb_true_iff, negb_true_iff.
    destruct (get o "description") as [| |b|d]; cbn; split; intros [? ?]; done.
  - destruct (get o "description") as [| |b|d]; cbn [length_of exceeds].
    + split; [by intros [_ ?]%andb_prop|by intros (d & [=] & _)].
    + split; [by intros [_ ?]%andb_prop|by intros (d & [=] & _)].
    + split; [by intros [_ ?]%andb_prop|by intros (d & [=] & _)].
    + rewrite andb_true_iff, Nat.ltb_lt. split.
      * intros [_ Hd]. by exists d.
      * intros (d' & [= <-] & Hd). split; [|done]. destruct d; [simpl in Hd; lia|done].
  - rewrite orb_true_iff, !negb_true_iff, bool_decide_eq_false. split.
    + intros [Hfalsy|Hnot]; [|done].
      intros Hin. rewrite !elem_of_cons in Hin.
      destruct Hin as [Heq|[Heq|[Heq|Hin]]]; try (rewrite Heq in Hfalsy; discriminate Hfalsy).
      by apply elem_of_nil in Hin.
    + auto.
  - rewrite andb_true_iff. destruct (new_Date (get o "createdAt")); cbn; split; intros [? ?]; done.
Qed.

(** Only five fields are read: two records that agree on them get the same
    verdict, so that [id] and any other field are never looked at. *)
Theorem validateTask_reads_five_fields (o o' : obj) :
  (forall k, k ∈ ["title"; "description"; "priority"; "completed"; "createdAt"] ->
     o' !! k = o !! k) ->
  validateTask (VObj o') = validateTask (VObj o).
Proof using Date_parse.
  clear localeCompare setItem_accepts.
  intros Hsame. unfold validateTask, field, get.
  rewrite !Hsame; [done|..]; rewrite !elem_of_cons; tauto.
Qed.

(** ** sortTasks: the keys that never throw, and the one that may *)

(** Whatever the comparator, a sort that returns returns a permutation. *)
Lemma sort_insert_Ok_perm {A} (comparefn : A -> A -> outcome number) (x : A) (l l' : list A) :
  sort_insert comparefn x l = Ok l' -> Permutation l' (x :: l).
Proof.
  revert l'. induction l as [|y r IH]; intros l'; simpl.
  - by intros [= <-].
  - destruct (comparefn x y) as [v|e]; simpl; [|done].
    destruct (0 <? sort_compare v)%Z; [|by intros [= <-]].
    destruct (sort_insert comparefn x r) as [r'|e]; simpl; [|done].
    intros [= <-]. rewrite (IH r' eq_refl). apply perm_swap.
Qed.

Lemma Array_sort_Ok_perm {A} (comparefn : A -> A -> outcome number) (l l' : list A) :
  Array_sort comparefn l = Ok l' -> Permutation l' l.
Proof.
  revert l'. induction l as [|x r IH]; intros l'; simpl.
  - by intros [= <-].
  - destruct (Array_sort comparefn r) as [r'|e]; simpl; [|done].
    intros Hinsert%sort_insert_Ok_perm. rewrite Hinsert. constructor. by apply IH.
Qed.

(** A comparator that always returns makes the sort return. *)
Lemma Array_sort_total {A} (comparefn : A -> A -> outcome number) (c : A -> A -> Z) (l : list A) :
  (forall x y, exists v, comparefn x y = Ok v /\ sort_compare v = c x y) ->
  Array_sort comparefn l = Ok (stable_sort c l).
Proof. intros Htotal. apply Array_sort_pure. intros x y _ _. apply Htotal. Qed.

Lemma compareTasks_total (sortBy sortOrder : string) (a b : obj) :
  String.eqb sortBy SORT_TITLE = false ->
  exists v, compareTasks sortBy sortOrder a b = Ok v
            /\ sort_compare v = comparison sortBy sortOrder a b.
Proof.
  intros Hkey. unfold comparison, compareTasks. rewrite Hkey.
  destruct (String.eqb sortBy SORT_CREATED); [by eexists|].
  destruct (String.eqb sortBy SORT_PRIORITY); [by eexists|].
  destruct (String.eqb sortBy SORT_PROGRESS); by eexists.
Qed.

(** X4: By every key other than [title], [sortTasks] returns whatever it is
    given: the empty array for what is not an array, and a permutation of an
    array whatever its records hold. *)
Theorem sortTasks_returns (tasks : value) (sortBy sortOrder : string) :
  sortBy <> SORT_TITLE ->
  exists sorted,
    sortTasks tasks sortBy sortOrder = Ok sorted
    /\ (isArray tasks = false -> sorted = [])
    /\ (forall ts, tasks = VArr ts -> Permutation sorted ts).
Proof.
  intros Hkey%String.eqb_neq. destruct tasks as [p|o|ts].
  - exists []. split; [done|]. split; [done|]. intros ts [=].
  - exists []. split; [done|]. split; [done|]. intros ts [=].
  - exists (stable_sort (comparison sortBy sortOrder) ts). split.
    + cbn [sortTasks]. apply Array_sort_total. intros a b. by apply compareTasks_total.
    + split; [done|]. intros ? [= <-]. apply stable_sort_perm.
Qed.

Lemma stable_sort_no_order {A} (c : A -> A -> Z) (l : list A) :
  (forall x y, (c x y <= 0)%Z) -> stable_sort c l = l.
Proof.
  intros Hc. induction l as [|x r IH]; [done|]. cbn [stable_sort]. rewrite IH.
  destruct r as [|y r]; [done|]. cbn [insert_by].
  by destruct (Z.ltb_spec 0 (c x y)); [pose proof (Hc x y); lia|].
Qed.

(** X5: A key that is none of the four compares every pair as equal: the array
    comes back in its input order, in either sort order. *)
Theorem sortTasks_unknown_key (ts : list obj) (sortBy sortOrder : string) :
  sortBy ∉ [SORT_CREATED; SORT_PRIORITY; SORT_PROGRESS; SORT_TITLE] ->
  sortTasks (VArr ts) sortBy sortOrder = Ok ts.
Proof.
  intros Hkey. rewrite !not_elem_of_cons in Hkey.
  destruct Hkey as (H1%String.eqb_neq & H2%String.eqb_neq & H3%String.eqb_neq
                    & H4%String.eqb_neq & _).
  cbn [sortTasks]. rewrite <- (stable_sort_no_order (comparison sortBy sortOrder) ts) at 2.
  - apply Array_sort_total. intros a b. by apply compareTasks_total.
  - intros a b. unfold comparison, compareTasks. rewrite H1, H2, H3, H4.
    simpl. by destruct (String.eqb sortOrder ASC).
Qed.

(** The stable sort by a key of two values: the records of the low value in
    their order, then those of the high value in theirs. *)
Lemma insert_by_two {A} (c : A -> A -> Z) (high : A -> bool) (x : A) (lows highs : list A) :
  (forall x y, (0 < c x y)%Z <-> high x = true /\ high y = false) ->
  Forall (fun y => high y = false) lows ->
  Forall (fun y => high y = true) highs ->
  insert_by c x (lows ++ highs)
  = if high x then (lows ++ x :: highs)%list else x :: (lows ++ highs)%list.
Proof.
  intros Hc Hlows Hhighs. induction Hlows as [|y lows Hy _ IH]; cbn [app insert_by].
  - destruct highs as [|y highs]; [by destruct (high x)|]. cbn [insert_by].
    apply Forall_cons in Hhighs as [Hy _].
    destruct (Z.ltb_spec 0 (c x y)) as [Hgt|_].
    + apply Hc in Hgt as [_ Hgt]. congruence.
    + by destruct (high x).
  - destruct (Z.ltb_spec 0 (c x y)) as [Hgt|Hle].
    + apply Hc in Hgt as [Hx _]. rewrite IH, Hx. reflexivity.
    + destruct (high x) eqn:Hx; [|done].
      exfalso. assert (0 < c x y)%Z by by apply Hc. lia.
Qed.

Lemma stable_sort_two {A} (c : A -> A -> Z) (high : A -> bool) (l : list A) :
  (forall x y, (0 < c x y)%Z <-> high x = true /\ high y = false) ->
  stable_sort c l
  = (List.filter (fun y => negb (high y)) l ++ List.filter high l)%list.
Proof.
  intros Hc. induction l as [|x r IH]; [done|]. cbn [stable_sort]. rewrite IH.
  rewrite (insert_by_two c high); [|done|..].
  - cbn [List.filter]. by destruct (high x).
  - apply List.Forall_forall. intros y [_ Hy]%filter_In. by apply negb_true_iff.
  - apply List.Forall_forall. by intros y [_ Hy]%filter_In.
Qed.

(** X6: By progress the sort is a stable partition: ascending lists the
    records that are not completed, in their input order, then the completed
    ones in theirs; every other order lists the completed ones first.  No
    record makes this sort throw. *)
Theorem sortTasks_progress (ts : list obj) (sortOrder : string) :
  let completed := List.filter (fun task => truthy (get task "completed")) ts in
  let pending := List.filter (fun task => negb (truthy (get task "completed"))) ts in
  sortTasks (VArr ts) SORT_PROGRESS sortOrder
  = Ok (if String.eqb sortOrder ASC then pending ++ completed else completed ++ pending)%list.
Proof.
  cbv zeta.
  cbn [sortTasks].
  rewrite (Array_sort_total _ (comparison SORT_PROGRESS sortOrder))
    by (intros a b; by apply compareTasks_total).
  f_equal. destruct (String.eqb sortOrder ASC) eqn:Horder.
  - apply (stable_sort_two _ (fun task => truthy (get task "completed"))).
    intros a b. unfold comparison, compareTasks. cbn. rewrite Horder.
    destruct (truthy (get a "completed")), (truthy (get b "completed")); cbn;
      split; (lia || (intros [? ?]; done) || done).
  - rewrite (stable_sort_two _ (fun task => negb (truthy (get task "completed")))).
    + f_equal. apply filter_ext. intros a. apply negb_involutive.
    + intros a b. unfold comparison, compareTasks. cbn. rewrite Horder.
      destruct (truthy (get a "completed")), (truthy (get b "completed")); cbn;
        split; (lia || (intros [? ?]; done) || done).
Qed.

Lemma compareTasks_title_Throw (sortOrder : string) (a b : obj) :
  typeof (get a "title") <> "string" \/ typeof (get b "title") <> "string" ->
  exists message, compareTasks SORT_TITLE sortOrder a b = Throw message.
Proof.
  unfold compareTasks. cbn.
  destruct (get a "title") as [| |ba|sa]; cbn; try by eexists.
  destruct (get b "title") as [| |bb|sb]; cbn; try by eexists.
  intros [H|H]; done.
Qed.

(** X7: By title the sort reads the title of every record it compares: with
    two records or more, one of which has no string for a title, it throws.  A
    single record is compared with nothing and comes back whatever it holds. *)
Theorem sortTasks_title_throws (ts : list obj) (sortOrder : string) :
  2 <= length ts ->
  Exists (fun task => typeof (get task "title") <> "string") ts ->
  (exists message, sortTasks (VArr ts) SORT_TITLE sortOrder = Throw message)
  /\ forall task, sortTasks (VArr [task]) SORT_TITLE sortOrder = Ok [task].
Proof.
  intros Hlen Hbad. split; [|done]. cbn [sortTasks].
  induction ts as [|x r IH]; [simpl in Hlen; lia|]. cbn [Array_sort].
  destruct (Array_sort (compareTasks SORT_TITLE sortOrder) r) as [r'|e] eqn:Hr;
    [|by eexists].
  cbn. pose proof (Array_sort_Ok_perm _ _ _ Hr) as Hperm.
  destruct r' as [|y r'].
  { apply Permutation_nil in Hperm. subst r. simpl in Hlen. lia. }
  cbn [sort_insert].
  destruct (compareTasks_title_Throw sortOrder x y) as [message ->]; [|by eexists].
  apply Exists_cons in Hbad as [Hx|Hr_bad]; [by left|]. right.
  destruct r as [|z [|z' r]].
  - by apply Exists_nil in Hr_bad.
  - symmetry in Hperm. apply Permutation_length_1_inv in Hperm. injection Hperm as -> ->.
    apply Exists_cons in Hr_bad as [Hz|Hnil]; [done|]. by apply Exists_nil in Hnil.
  - destruct IH as [message Hthrow]; [simpl; lia|done|]. congruence.
Qed.

(** ** filterTasks: what is found *)

Lemma includes_empty (s : string) : includes s EmptyString = true.
Proof. by destruct s. Qed.

Lemma prefix_append (t s : string) :
  String.prefix t s = true <-> exists post, s = t +:+ post.
Proof.
  revert s. induction t as [|c t IH]; intros s.
  - split; [intros _; by exists s|by destruct s].
  - destruct s as [|d s]; cbn [String.prefix].
    + split; [done|]. by intros [post [=]].
    + destruct (Ascii.ascii_dec c d) as [<-|Hcd].
      * rewrite IH. split; intros [post Hpost]; exists post.
        -- by rewrite Hpost.
        -- by injection Hpost.
      * split; [done|]. intros [post [=]]. done.
Qed.

(** [includes] is the search for a substring. *)
Lemma includes_substring (s t : string) :
  includes s t = true <-> exists pre post, s = pre +:+ t +:+ post.
Proof.
  induction s as [|c s IH]; cbn [includes].
  - rewrite orb_false_r, prefix_append. split.
    + intros [post Hpost]. by exists EmptyString, post.
    + intros (pre & post & Hs). destruct pre; [by exists post|done].
  - rewrite orb_true_iff, prefix_append, IH. split.
    + intros [[post Hpost]|(pre & post & ->)].
      * by exists EmptyString, post.
      * by exists (String c pre), post.
    + intros (pre & post & Hs). destruct pre as [|d pre].
      * left. by exists post.
      * right. injection Hs as -> ->. by exists pre, post.
Qed.

Lemma List_filter_sublist {A} (p : A -> bool) (l : list A) : sublist (List.filter p l) l.
Proof.
  induction l as [|x l IH]; [done|]. cbn [List.filter].
  destruct (p x); by constructor.
Qed.

Lemma Array_filter_pure {A} (callback : A -> outcome bool) (p : A -> bool) (l : list A) :
  Forall (fun x => callback x = Ok (p x)) l ->
  Array_filter callback l = Ok (List.filter p l).
Proof.
  induction 1 as [|x l Hx _ IH]; [done|]. cbn [Array_filter List.filter].
  rewrite Hx, IH. cbn. by destruct (p x).
Qed.

Lemma matches_found (term : string) (task : obj) :
  searchable task = true -> matches term task = Ok (found term task).
Proof.
  unfold searchable, matches, found. intros [Htitle Hdesc]%andb_prop.
  apply typeof_string in Htitle as [t ->]. cbn.
  destruct (includes (toLowerCase t) term); [done|]. cbn [orb].
  destruct (truthy (get task "description")) eqn:Htruthy; [|done].
  simpl in Hdesc. by apply typeof_string in Hdesc as [d ->].
Qed.

(** On searchable records a search with a term that is not empty is the
    filter by [found]. *)
Lemma filterTasks_filter (ts : list obj) (s : string) :
  s <> EmptyString ->
  Forall (fun task => searchable task = true) ts ->
  filterTasks (VArr ts) (PStr s)
  = Ok (VArr (List.filter (found (trim (toLowerCase s))) ts)).
Proof.
  intros Hs Hts. unfold filterTasks.
  destruct s as [|c s]; [done|]. cbn.
  rewrite (Array_filter_pure _ (found (trim (toLowerCase (String c s))))); [done|].
  eapply Forall_impl; [exact Hts|]. intros task. apply matches_found.
Qed.

(** X8: A search with a term that is not empty keeps, in their order, exactly
    the records whose title contains the term or whose description is truthy
    and contains it, the term trimmed and case left aside on both sides. *)
Theorem filterTasks_finds (ts : list obj) (s : string) :
  s <> EmptyString ->
  Forall (fun task => searchable task = true) ts ->
  let term := trim (toLowerCase s) in
  let contains (p : prim) := exists pre post, searched p = pre +:+ term +:+ post in
  exists kept,
    filterTasks (VArr ts) (PStr s) = Ok (VArr kept)
    /\ sublist kept ts
    /\ forall task,
         task ∈ kept <->
         task ∈ ts
         /\ (contains (get task "title")
             \/ (truthy (get task "description") = true
                 /\ contains (get task "description"))).
Proof.
  intros Hs Hts term contains.
  exists (List.filter (found term) ts).
  split; [by apply filterTasks_filter|].
  split; [apply List_filter_sublist|].
  intros task. rewrite !list_elem_of_In, filter_In. unfold found, contains.
  by rewrite orb_true_iff, andb_true_iff, !includes_substring.
Qed.

Lemma lower_char_white_space (c : ascii) : is_white_space (lower_char c) = is_white_space c.
Proof. destruct c as [[] [] [] [] [] [] [] []]; reflexivity. Qed.

Lemma lower_char_idemp (c : ascii) : lower_char (lower_char c) = lower_char c.
Proof. destruct c as [[] [] [] [] [] [] [] []]; reflexivity. Qed.

Lemma toLowerCase_idemp (s : string) : toLowerCase (toLowerCase s) = toLowerCase s.
Proof.
  induction s as [|c s IH]; [done|]. cbn [toLowerCase]. by rewrite lower_char_idemp, IH.
Qed.

Lemma toLowerCase_empty (s : string) : toLowerCase s = EmptyString <-> s = EmptyString.
Proof. by destruct s. Qed.

Lemma trimStart_toLowerCase (s : string) :
  trimStart (toLowerCase s) = toLowerCase (trimStart s).
Proof.
  induction s as [|c s IH]; [done|]. cbn [toLowerCase trimStart].
  rewrite lower_char_white_space. by destruct (is_white_space c).
Qed.

Lemma trimEnd_toLowerCase (s : string) :
  trimEnd (toLowerCase s) = toLowerCase (trimEnd s).
Proof.
  induction s as [|c s IH]; [done|]. cbn [toLowerCase trimEnd].
  rewrite IH, lower_char_white_space.
  destruct (trimEnd s); [by destruct (is_white_space c)|done].
Qed.

(** Trimming and lower-casing commute. *)
Lemma trim_toLowerCase (s : string) : trim (toLowerCase s) = toLowerCase (trim s).
Proof. unfold trim. by rewrite trimStart_toLowerCase, trimEnd_toLowerCase. Qed.

Lemma List_filter_all {A} (p : A -> bool) (l : list A) :
  (forall x, p x = true) -> List.filter p l = l.
Proof.
  intros Hp. induction l as [|x l IH]; [done|]. cbn [List.filter]. by rewrite Hp, IH.
Qed.

(** X9: A search term of white space only finds every record: trimmed it is
    the empty string, which every title contains. *)
Theorem filterTasks_blank_term (ts : list obj) (s : string) :
  trim s = EmptyString ->
  Forall (fun task => searchable task = true) ts ->
  filterTasks (VArr ts) (PStr s) = Ok (VArr ts).
Proof.
  intros Hblank Hts. destruct (decide (s = EmptyString)) as [->|Hs]; [done|].
  rewrite filterTasks_filter by done.
  rewrite trim_toLowerCase, Hblank. cbn [toLowerCase].
  rewrite List_filter_all; [done|].
  intros task. unfold found. by rewrite includes_empty.
Qed.

Lemma List_filter_idemp {A} (p : A -> bool) (l : list A) :
  List.filter p (List.filter p l) = List.filter p l.
Proof.
  induction l as [|x l IH]; [done|]. cbn [List.filter].
  destruct (p x) eqn:Hx; [|done]. cbn [List.filter]. by rewrite Hx, IH.
Qed.

(** X10: Searching what a search returned, with the same term, returns it
    again. *)
Theorem filterTasks_idempotent (ts : list obj) (s : string) :
  Forall (fun task => searchable task = true) ts ->
  exists kept,
    filterTasks (VArr ts) (PStr s) = Ok (VArr kept)
    /\ filterTasks (VArr kept) (PStr s) = Ok (VArr kept).
Proof.
  intros Hts. destruct (decide (s = EmptyString)) as [->|Hs]; [by exists ts|].
  exists (List.filter (found (trim (toLowerCase s))) ts).
  split; [by apply filterTasks_filter|].
  rewrite filterTasks_filter; [by rewrite List_filter_idemp|done|].
  apply List.Forall_forall. intros task [Htask _]%filter_In.
  rewrite List.Forall_forall in Hts. by apply Hts.
Qed.

(** The search ignores the case of the term: two terms with the same lower
    case give the same result on every input, and so do a term and its lower
    case. *)
Theorem filterTasks_ignores_case (tasks : value) (s1 s2 : string) :
  toLowerCase s1 = toLowerCase s2 ->
  filterTasks tasks (PStr s1) = filterTasks tasks (PStr s2)
  /\ filterTasks tasks (PStr (toLowerCase s1)) = filterTasks tasks (PStr s1).
Proof using.
  clear.
  assert (Hcase : forall a b, toLowerCase a = toLowerCase b ->
            filterTasks tasks (PStr a) = filterTasks tasks (PStr b)).
  { intros a b Hab. unfold filterTasks. cbn [truthy toLowerCase_of]. rewrite Hab.
    destruct a, b; try done. }
  intros Hsame. split; [by apply Hcase|].
  apply Hcase, toLowerCase_idemp.
Qed.

(** ** Searching and sorting *)

Section FilterSort.

Context {A : Type} (c : A -> A -> Z) (P : A -> Prop) (p : A -> bool).

Hypothesis c_flip : forall x y, P x -> P y -> (0 < c x y <-> c y x < 0)%Z.
Hypothesis c_trans :
  forall x y z, P x -> P y -> P z -> (c x y <= 0 -> c y z <= 0 -> c x z <= 0)%Z.

Lemma insert_by_first (x : A) (l : list A) :
  Forall (fun z => c x z <= 0)%Z l -> insert_by c x l = x :: l.
Proof.
  destruct 1 as [|y r Hy _]; [done|]. cbn [insert_by].
  by destruct (Z.ltb_spec 0 (c x y)); [lia|].
Qed.

Lemma filter_insert_by (x : A) (l : list A) :
  P x -> Forall P l -> StronglySorted (before c) l ->
  List.filter p (insert_by c x l)
  = if p x then insert_by c x (List.filter p l) else List.filter p l.
Proof.
  intros Hx HP Hsorted. induction Hsorted as [|y r Hr IH Hy]; cbn [insert_by List.filter].
  - by destruct (p x).
  - apply Forall_cons in HP as [HPy HPr].
    destruct (Z.ltb_spec 0 (c x y)) as [Hgt|Hle]; cbn [List.filter].
    + rewrite IH by done. destruct (p y), (p x); try done.
      cbn [insert_by]. by destruct (Z.ltb_spec 0 (c x y)); [|lia].
    + destruct (p x); [|done].
      change (if p y then y :: List.filter p r else List.filter p r)
        with (List.filter p (y :: r)).
      symmetry. apply insert_by_first.
      apply List.Forall_forall. intros z [Hz _]%filter_In.
      destruct Hz as [<-|Hz]; [done|].
      rewrite List.Forall_forall in Hy, HPr.
      apply (c_trans x y z); [done|done|by apply HPr|done|by apply Hy].
Qed.

(** Filtering a stable sort gives the stable sort of the filtered list. *)
Lemma filter_stable_sort (l : list A) :
  Forall P l -> List.filter p (stable_sort c l) = stable_sort c (List.filter p l).
Proof using c_flip c_trans.
  induction 1 as [|x r Hx Hr IH]; [done|]. cbn [stable_sort List.filter].
  rewrite filter_insert_by;
    [|done|by apply stable_sort_Forall|by apply (stable_sort_sorted c P)].
  rewrite IH. by destruct (p x).
Qed.

End FilterSort.

Section SortedSearch.

Hypothesis localeCompare_flip :
  forall s t, (0 < localeCompare s t <-> localeCompare t s < 0)%Z.
Hypothesis localeCompare_trans :
  forall s t u,
    (localeCompare s t <= 0 -> localeCompare t u <= 0 -> localeCompare s u <= 0)%Z.

(** X11: Searching and sorting commute: the search of the sorted array is the
    sort of what the search found. *)
Theorem filterTasks_sortTasks_commute (ts : list obj) (s sortBy sortOrder : string) :
  Forall (fun task => searchable task = true) ts ->
  Forall (fun task => sortable sortBy task = true) ts ->
  exists kept sorted result,
    filterTasks (VArr ts) (PStr s) = Ok (VArr kept)
    /\ sortTasks (VArr ts) sortBy sortOrder = Ok sorted
    /\ sortTasks (VArr kept) sortBy sortOrder = Ok result
    /\ filterTasks (VArr sorted) (PStr s) = Ok (VArr result).
Proof.
  intros Hsearch Hsort.
  set (c := comparison sortBy sortOrder).
  pose proof (sortTasks_stable_sort ts sortBy sortOrder Hsort) as Hsorted.
  destruct (decide (s = EmptyString)) as [->|Hs].
  { exists ts, (stable_sort c ts), (stable_sort c ts). by repeat split. }
  set (found_s := found (trim (toLowerCase s))).
  exists (List.filter found_s ts), (stable_sort c ts), (stable_sort c (List.filter found_s ts)).
  split; [by apply filterTasks_filter|]. split; [done|].
  split.
  { apply sortTasks_stable_sort.
    apply List.Forall_forall. intros task [Htask _]%filter_In.
    rewrite List.Forall_forall in Hsort. by apply Hsort. }
  rewrite filterTasks_filter; [|done|].
  2:{ apply stable_sort_Forall. exact Hsearch. }
  f_equal. f_equal.
  apply (filter_stable_sort c (fun task => sortable sortBy task = true)); [| |done].
  - intros; by apply comparison_flip.
  - intros x y z ???; by apply comparison_trans.
Qed.

End SortedSearch.

(** ** getTaskStats and the counters of the hook *)

Lemma List_filter_length_perm {A} (p : A -> bool) (l l' : list A) :
  Permutation l l' -> length (List.filter p l) = length (List.filter p l').
Proof.
  induction 1 as [|x l l' _ IH|x y l|l l' l'' _ IH1 _ IH2]; cbn [List.filter].
  - done.
  - destruct (p x); simpl; by rewrite IH.
  - by destruct (p x), (p y).
  - by rewrite IH1.
Qed.

Lemma getTaskStats_Permutation (l l' : list obj) :
  Permutation l l' -> getTaskStats (VArr l) = getTaskStats (VArr l').
Proof using.
  clear. intros Hperm. unfold getTaskStats. rewrite !fold_count_task.
  cbn [c_total c_completed c_pending c_highPriority c_mediumPriority c_lowPriority].
  rewrite (Permutation_length Hperm).
  by rewrite !(List_filter_length_perm _ l l' Hperm).
Qed.

(** X12: The statistics do not depend on the order: an array and what
    [sortTasks] makes of it have the same statistics. *)
Theorem getTaskStats_sortTasks (ts sorted : list obj) (sortBy sortOrder : string) :
  sortTasks (VArr ts) sortBy sortOrder = Ok sorted ->
  getTaskStats (VArr sorted) = getTaskStats (VArr ts).
Proof.
  cbn [sortTasks]. intros Hperm%Array_sort_Ok_perm. by apply getTaskStats_Permutation.
Qed.

Lemma priority_counts (ts : list obj) :
  length (List.filter (fun t => strict_eq (get t "priority") (PStr "High")) ts)
  + length (List.filter (fun t => strict_eq (get t "priority") (PStr "Medium")) ts)
  + length (List.filter (fun t => strict_eq (get t "priority") (PStr "Low")) ts)
  = length (List.filter
              (fun t => bool_decide (get t "priority" ∈ [PStr "High"; PStr "Medium"; PStr "Low"]))
              ts).
Proof.
  induction ts as [|task ts IH]; [done|]. cbn [List.filter]. unfold strict_eq in *.
  repeat case_bool_decide; cbn [length]; try lia; exfalso;
    repeat match goal with
      | H : _ ∈ _ |- _ => rewrite !elem_of_cons, elem_of_nil in H
      | H : _ ∉ _ |- _ => rewrite !not_elem_of_cons in H
      end;
    intuition congruence.
Qed.

Lemma List_filter_length_all {A} (p : A -> bool) (l : list A) :
  length (List.filter p l) <= length l
  /\ (length (List.filter p l) = length l <-> Forall (fun x => p x = true) l).
Proof.
  induction l as [|x l [IHle IHeq]]; [by split|]. cbn [List.filter].
  rewrite Forall_cons. destruct (p x); cbn [length].
  - split; [lia|]. rewrite <- IHeq. split; [intros ?; split; [done|lia]|intros [_ ?]; lia].
  - split; [lia|]. split; [lia|by intros [? _]].
Qed.

(** X13: The three priority counts add up to the total exactly when every
    record has one of the three priorities; a record with any other priority
    is counted in the total only. *)
Theorem getTaskStats_priorities (ts : list obj) :
  let s := getTaskStats (VArr ts) in
  highPriority s + mediumPriority s + lowPriority s <= total s
  /\ (highPriority s + mediumPriority s + lowPriority s = total s <->
      Forall (fun task => get task "priority" ∈ [PStr "High"; PStr "Medium"; PStr "Low"]) ts).
Proof using.
  clear. cbv zeta. unfold getTaskStats. rewrite fold_count_task.
  cbn [total highPriority mediumPriority lowPriority
       c_total c_highPriority c_mediumPriority c_lowPriority zero_counts Nat.add].
  rewrite priority_counts.
  destruct (List_filter_length_all
              (fun t => bool_decide (get t "priority" ∈ [PStr "High"; PStr "Medium"; PStr "Low"]))
              ts) as [Hle Heq].
  split; [done|]. rewrite Heq. apply Forall_iff. intros task. apply bool_decide_eq_true.
Qed.

(** X14: The counters the hook returns are the statistics of its collection,
    and its getters return as many records as the statistics count: by
    priority for every collection, by status when [completed] is a boolean in
    every record. *)
Theorem counters_are_statistics (m : manager) :
  let s := getTaskStats (VArr (tasks m)) in
  totalTasks m = total s
  /\ completedTasks m = completed s
  /\ pendingTasks m = pending s
  /\ length (getTasksByPriority (PStr "High") m) = highPriority s
  /\ length (getTasksByPriority (PStr "Medium") m) = mediumPriority s
  /\ length (getTasksByPriority (PStr "Low") m) = lowPriority s
  /\ (Forall (fun task => exists b, get task "completed" = PBool b) (tasks m) ->
      length (getTasksByStatus (PBool true) m) = completed s
      /\ length (getTasksByStatus (PBool false) m) = pending s).
Proof using.
  clear. cbv zeta. unfold getTaskStats. rewrite fold_count_task.
  cbn [total completed pending highPriority mediumPriority lowPriority
       c_total c_completed c_pending c_highPriority c_mediumPriority c_lowPriority
       zero_counts Nat.add].
  do 6 (split; [reflexivity|]).
  intros Hbool. rewrite List.Forall_forall in Hbool.
  split; unfold getTasksByStatus; f_equal; apply filter_ext_in;
    intros task Htask; destruct (Hbool task Htask) as [b ->]; by destruct b.
Qed.

(** ** The hook: looking records up after an operation *)

Lemma find_findIndex (taskId : prim) (l : list obj) :
  List.find (fun task => strict_eq (get task "id") taskId) l
  = (i ← findIndex taskId l; l !! i).
Proof.
  induction l as [|task l IH]; [done|]. cbn [List.find findIndex].
  destruct (strict_eq (get task "id") taskId); [done|].
  rewrite IH. by destruct (findIndex taskId l).
Qed.

Lemma find_None_ids (taskId : prim) (l : list obj) :
  List.find (fun task => strict_eq (get task "id") taskId) l = None
  <-> forall task, task ∈ l -> get task "id" <> taskId.
Proof.
  induction l as [|task l IH]; cbn [List.find].
  - split; [intros _ task Htask; by apply elem_of_nil in Htask|done].
  - unfold strict_eq at 1. case_bool_decide as Hid.
    + split; [done|]. intros Hall. destruct (Hall task); [by left|done].
    + rewrite IH. split.
      * intros Hall task' [->|Htask']%elem_of_cons; [done|by apply Hall].
      * intros Hall task' Htask'. apply Hall. by right.
Qed.

Lemma find_snoc {A} (p : A -> bool) (l : list A) (x : A) :
  List.find p (l ++ [x])
  = match List.find p l with
    | Some y => Some y
    | None => if p x then Some x else None
    end.
Proof.
  induction l as [|y l IH]; cbn [app List.find]; [done|]. by destruct (p y).
Qed.

(** A record whose [id] stays the same can be replaced without moving any
    id in the collection. *)
Lemma findIndex_insert (taskId : prim) (l : list obj) (i : nat) (prev updated : obj) :
  l !! i = Some prev -> get updated "id" = get prev "id" ->
  findIndex taskId (<[i := updated]> l) = findIndex taskId l.
Proof.
  revert i. induction l as [|task l IH]; intros i Hi Hid; [done|].
  destruct i as [|i]; cbn [list_insert findIndex Datatypes.id].
  - injection Hi as ->. change (<[0:=updated]> (prev :: l)) with (updated :: l).
    cbn [findIndex]. by rewrite Hid.
  - change (<[S i:=updated]> (task :: l)) with (task :: <[i:=updated]> l).
    cbn [findIndex]. by rewrite (IH i).
Qed.

(** X15: [getTaskById] returns the first record with the id, the record
    [updateTask] would merge into; it returns [null] exactly when no record
    has the id, and what it returns is a record of the collection with that
    id. *)
Theorem getTaskById_first (taskId : prim) (m : manager) :
  getTaskById taskId m = (i ← findIndex taskId (tasks m); tasks m !! i)
  /\ (getTaskById taskId m = None <-> forall task, task ∈ tasks m -> get task "id" <> taskId)
  /\ (forall task, getTaskById taskId m = Some task ->
        task ∈ tasks m /\ get task "id" = taskId).
Proof using.
  clear. unfold getTaskById. split; [apply find_findIndex|]. split; [apply find_None_ids|].
  intros task [Htask Hid]%find_some. split; [by apply list_elem_of_In|].
  by apply bool_decide_eq_true in Hid.
Qed.

(** X16: After a successful [addTask] every id finds what it found before, and
    an id that found nothing finds the new record if it is the new record's
    id.  When the draft has no [id] and the fresh one is not in the
    collection, the fresh id finds the new record. *)
Theorem getTaskById_addTask
    (uuid now : string) (taskData : obj) (m m' : manager) (newTask : obj) :
  addTask uuid now taskData m = (Success (Some newTask), m') ->
  (forall taskId,
     getTaskById taskId m'
     = match getTaskById taskId m with
       | Some task => Some task
       | None => if strict_eq (get newTask "id") taskId then Some newTask else None
       end)
  /\ (taskData !! "id" = None -> getTaskById (PStr uuid) m = None ->
      getTaskById (PStr uuid) m' = Some newTask).
Proof.
  intros Hadd.
  destruct (addTask_Success _ _ _ _ _ _ Hadd) as (newTask' & [= <-] & Htasks & _ & _ & Hid).
  assert (Hfind : forall taskId,
            getTaskById taskId m'
            = match getTaskById taskId m with
              | Some task => Some task
              | None => if strict_eq (get newTask "id") taskId then Some newTask else None
              end).
  { intros taskId. unfold getTaskById. rewrite Htasks.
    exact (find_snoc (fun task => strict_eq (get task "id") taskId) (tasks m) newTask). }
  split; [exact Hfind|].
  intros Hdraft Hfresh. rewrite Hfind, Hfresh.
  unfold get. rewrite Hid, Hdraft. cbn [default]. unfold strict_eq.
  by rewrite bool_decide_eq_true_2.
Qed.

Lemma find_filter_other (taskId other : prim) (l : list obj) :
  other <> taskId ->
  List.find (fun task => strict_eq (get task "id") other)
    (List.filter (fun task => negb (strict_eq (get task "id") taskId)) l)
  = List.find (fun task => strict_eq (get task "id") other) l.
Proof.
  intros Hother. induction l as [|task l IH]; [done|]. cbn [List.filter List.find].
  destruct (strict_eq (get task "id") taskId) eqn:Hid; cbn [negb List.find].
  - assert (strict_eq (get task "id") other = false) as ->; [|exact IH].
    apply bool_decide_eq_false. apply bool_decide_eq_true in Hid. congruence.
  - destruct (strict_eq (get task "id") other); [done|exact IH].
Qed.

(** X17: [deleteTask] on an id of the collection succeeds and removes every
    record with that id: the id finds nothing afterwards, every other id finds
    what it found, the records that stay keep their order, and the error flag
    is cleared. *)
Theorem deleteTask_removes (taskId : prim) (m : manager) :
  getTaskById taskId m <> None ->
  exists m',
    deleteTask taskId m = (Success None, m')
    /\ error m' = None
    /\ tasks m' = List.filter (fun task => negb (strict_eq (get task "id") taskId)) (tasks m)
    /\ sublist (tasks m') (tasks m)
    /\ length (tasks m') < length (tasks m)
    /\ getTaskById taskId m' = None
    /\ forall other, other <> taskId -> getTaskById other m' = getTaskById other m.
Proof using.
  clear. intros Hfound. unfold deleteTask, delete_updater.
  assert (existsb (fun task => strict_eq (get task "id") taskId) (tasks m) = true) as ->.
  { unfold getTaskById in Hfound.
    destruct (List.find _ (tasks m)) as [task|] eqn:Hfind; [|done].
    apply find_some in Hfind as [Htask Hid]. apply existsb_exists. by exists task. }
  cbn [negb setTasks nextTasks]. eexists. split; [done|]. cbn [tasks error].
  split; [done|]. split; [done|]. split; [apply List_filter_sublist|]. split.
  { unfold getTaskById in Hfound.
    destruct (List.find _ (tasks m)) as [task|] eqn:Hfind; [|done].
    apply find_some in Hfind as [Htask Hid]. clear Hfound.
    induction (tasks m) as [|x l IH]; [done|]. cbn [List.filter].
    destruct Htask as [->|Htask].
    - rewrite Hid. cbn [negb length].
      pose proof (List_filter_length_all
                    (fun task => negb (strict_eq (get task "id") taskId)) l) as [Hle _].
      lia.
    - specialize (IH Htask). destruct (negb _); cbn [length]; lia. }
  split.
  - apply find_None_ids. intros task [_ Hkept]%list_elem_of_In%filter_In.
    apply negb_true_iff in Hkept. by apply bool_decide_eq_false in Hkept.
  - intros other Hother. by apply find_filter_other.
Qed.

Lemma getTaskById_index (taskId : prim) (m : manager) (prev : obj) :
  getTaskById taskId m = Some prev ->
  exists i, findIndex taskId (tasks m) = Some i
            /\ tasks m !! i = Some prev
            /\ get prev "id" = taskId.
Proof.
  unfold getTaskById. rewrite find_findIndex.
  destruct (findIndex taskId (tasks m)) as [i|] eqn:Hfind; [|done]. cbn. intros Hprev.
  exists i. split; [done|]. split; [done|].
  destruct (findIndex_Some _ _ _ Hfind) as (prev' & Hprev' & Hid).
  rewrite Hprev in Hprev'. injection Hprev' as <-. by apply bool_decide_eq_true in Hid.
Qed.

(** X18: When the patch merged over the record of the id passes validation
    and leaves [id] alone, [updateTask] puts the merge where the id finds
    it; every other id finds what it found before. *)
Theorem getTaskById_updateTask (taskId : prim) (u : updates) (m : manager) (prev : obj) :
  getTaskById taskId m = Some prev ->
  isValid (validateTask (VObj (spread prev (own_properties u)))) = true ->
  own_properties u !! "id" = None ->
  getTaskById taskId (updateTask taskId u m).2 = Some (spread prev (own_properties u))
  /\ forall other, other <> taskId ->
       getTaskById other (updateTask taskId u m).2 = getTaskById other m.
Proof.
  intros (i & Hfind & Hprev & Hid)%getTaskById_index Hvalid Hpatch.
  destruct (updateTask_valid taskId u m i prev Hfind Hprev Hvalid) as [-> _]. cbn [snd].
  assert (Hsame : get (spread prev (own_properties u)) "id" = get prev "id").
  { unfold get, spread. by rewrite lookup_union_r. }
  assert (Hlt : i < length (tasks m)) by by eapply lookup_lt_Some.
  unfold getTaskById. cbn [tasks]. split.
  - rewrite find_findIndex, (findIndex_insert _ _ _ prev) by done.
    rewrite Hfind. cbn. by apply list_lookup_insert_eq.
  - intros other Hother.
    rewrite !find_findIndex, (findIndex_insert _ _ _ prev) by done.
    destruct (findIndex other (tasks m)) as [j|] eqn:Hj; [|done]. cbn.
    apply list_lookup_insert_ne. intros <-.
    destruct (findIndex_Some _ _ _ Hj) as (task & Htask & Hid').
    rewrite Hprev in Htask. injection Htask as <-.
    apply bool_decide_eq_true in Hid'. congruence.
Qed.





(** X21: On an id of the collection the two ways to delete agree:
    [deleteTask] of the hook leaves the collection that [handleDeleteTask]
    of the component computes, and its render does not throw.  On an id that
    is not in the collection [handleDeleteTask] leaves the collection as it
    is, where the updater of [deleteTask] throws in the render that follows.
    Deleting the same id again with [handleDeleteTask] changes nothing. *)
Theorem deleteTask_handleDeleteTask (taskId : prim) (m : manager) :
  (getTaskById taskId m <> None ->
     tasks (deleteTask taskId m).2 = handleDeleteTask taskId (tasks m)
     /\ deleteTask_render taskId m = None)
  /\ (getTaskById taskId m = None ->
      handleDeleteTask taskId (tasks m) = tasks m
      /\ deleteTask_render taskId m = Some "Task not found")
  /\ handleDeleteTask taskId (handleDeleteTask taskId (tasks m))
     = handleDeleteTask taskId (tasks m).
Proof using.
  clear.
  assert (Hexists : existsb (fun task => strict_eq (get task "id") taskId) (tasks m)
                    = bool_decide (getTaskById taskId m <> None)).
  { unfold getTaskById. induction (tasks m) as [|x l IH]; [done|]. cbn [existsb List.find].
    destruct (strict_eq (get x "id") taskId); [done|exact IH]. }
  split; [|split; [|apply List_filter_idemp]].
  - intros Hfound. unfold deleteTask, deleteTask_render, delete_updater.
    by rewrite Hexists, bool_decide_eq_true_2.
  - intros Habsent. unfold deleteTask_render, delete_updater.
    rewrite Hexists, bool_decide_eq_false_2 by (by intros []). split; [|done].
    pose proof (proj1 (find_None_ids taskId (tasks m)) Habsent) as Hids.
    clear Habsent Hexists.
    unfold handleDeleteTask.
    induction (tasks m) as [|x l IH]; [done|]. cbn [List.filter].
    unfold strict_eq at 1. rewrite bool_decide_eq_false_2 by (apply Hids; by left).
    cbn [negb]. f_equal. apply IH. intros task Htask. apply Hids. by right.
Qed.

(** ** addTask: which drafts are accepted *)

Lemma addTask_newTask (uuid now : string) (taskData : obj) :
  let newTask :=
    <["createdAt" := PStr now]>
      (<["completed" := PBool false]> (spread {["id" := PStr uuid]} taskData)) in
  get newTask "title" = get taskData "title"
  /\ get newTask "description" = get taskData "description"
  /\ get newTask "priority" = get taskData "priority"
  /\ get newTask "completed" = PBool false
  /\ get newTask "createdAt" = PStr now.
Proof.
  cbv zeta. unfold get, spread.
  rewrite lookup_insert_eq.
  rewrite !(lookup_insert_ne _ "createdAt") by done.
  rewrite lookup_insert_eq.
  rewrite !(lookup_insert_ne _ "completed") by done.
  repeat split;
    (destruct (taskData !! _) as [v|] eqn:Hk;
     [by rewrite (lookup_union_Some_l _ _ _ _ Hk)
     |rewrite lookup_union_r by done; by rewrite lookup_singleton_ne]).
Qed.

(** X22: [addTask] accepts a draft exactly when the draft's title, description
    and priority pass the validator, given a clock whose ISO string denotes a
    date.  An accepted draft is appended and the error flag is cleared; a
    refused one is answered with the validator's messages and the state, error
    flag included, stays as it was.  What the draft says about [completed] and
    [createdAt] makes no difference. *)
Theorem addTask_accepts (uuid now : string) (taskData : obj) (m : manager) :
  Date_parse now <> None ->
  let newTask :=
    <["createdAt" := PStr now]>
      (<["completed" := PBool false]> (spread {["id" := PStr uuid]} taskData)) in
  let draft_passes :=
    (exists t, get taskData "title" = PStr t /\ trim t <> EmptyString
               /\ String.length t <= 100)
    /\ (truthy (get taskData "description") = false
        \/ exists d, get taskData "description" = PStr d /\ String.length d <= 500)
    /\ (get taskData "priority" = PStr "High" \/ get taskData "priority" = PStr "Medium"
        \/ get taskData "priority" = PStr "Low") in
  (draft_passes ->
     addTask uuid now taskData m
     = (Success (Some newTask), {| tasks := tasks m ++ [newTask]; error := None |}))
  /\ (~ draft_passes ->
      addTask uuid now taskData m
      = (Failure (join ", " (errors (validateTask (VObj newTask)))), m))
  /\ (forall completed createdAt : prim,
        addTask uuid now (<["completed" := completed]> (<["createdAt" := createdAt]> taskData)) m
        = addTask uuid now taskData m).
Proof using Date_parse.
  clear localeCompare setItem_accepts.
  intros Hnow newTask draft_passes.
  assert (Hvalid : isValid (validateTask (VObj newTask)) = true <-> draft_passes).
  { rewrite validateTask_isValid_iff. unfold newTask.
    destruct (addTask_newTask uuid now taskData) as (-> & -> & -> & -> & ->).
    unfold draft_passes. split.
    - intros (? & ? & ? & _ & _). done.
    - intros (? & ? & ?). split; [done|]. split; [done|]. split; [done|].
      split; [by exists false|]. right. cbn [new_Date].
      by destruct (Date_parse now). }
  split; [|split].
  - intros Hdraft%Hvalid. unfold addTask. fold newTask. by rewrite Hdraft.
  - intros Hdraft. unfold addTask. fold newTask.
    destruct (isValid (validateTask (VObj newTask))); [|done].
    destruct Hdraft. by apply Hvalid.
  - intros completed createdAt. unfold addTask.
    assert (<["createdAt" := PStr now]>
              (<["completed" := PBool false]>
                 (spread {["id" := PStr uuid]}
                    (<["completed" := completed]> (<["createdAt" := createdAt]> taskData))))
            = newTask) as ->; [|done].
    subst newTask. unfold spread. apply map_eq. intros k.
    destruct (decide (k = "createdAt")) as [->|Hk1]; [by rewrite !lookup_insert_eq|].
    rewrite !(lookup_insert_ne _ "createdAt" k) by done.
    destruct (decide (k = "completed")) as [->|Hk2]; [by rewrite !lookup_insert_eq|].
    rewrite !(lookup_insert_ne _ "completed" k) by done.
    rewrite !lookup_union.
    by rewrite !(lookup_insert_ne _ "completed" k), !(lookup_insert_ne _ "createdAt" k).
Qed.

(** ** The component: toggling twice, and its own sort *)

(** X23: [handleToggleComplete] is its own inverse on records whose
    [completed] is a boolean: toggling the same id twice gives the collection
    back.  It keeps the length of the collection and every record with another
    id. *)
Theorem handleToggleComplete_involutive (id : prim) (prevTasks : list obj) :
  Forall (fun task => get task "id" = id -> exists b, task !! "completed" = Some (PBool b))
    prevTasks ->
  handleToggleComplete id (handleToggleComplete id prevTasks) = prevTasks
  /\ length (handleToggleComplete id prevTasks) = length prevTasks
  /\ forall i task, prevTasks !! i = Some task -> get task "id" <> id ->
       handleToggleComplete id prevTasks !! i = Some task.
Proof using.
  clear. intros Hbool. split; [|split].
  - unfold handleToggleComplete. rewrite List.map_map.
    rewrite <- (List.map_id prevTasks) at 2. apply List.map_ext_in.
    intros task Htask. rewrite List.Forall_forall in Hbool.
    unfold strict_eq at 2. case_bool_decide as Hid.
    + destruct (Hbool task Htask Hid) as [b Hb].
      assert (get (<["completed" := PBool (negb (truthy (get task "completed")))]> task) "id"
              = get task "id") as Hsame.
      { unfold get. by rewrite lookup_insert_ne. }
      unfold strict_eq. rewrite Hsame, bool_decide_eq_true_2 by done.
      unfold get. rewrite lookup_insert_eq, Hb, insert_insert_eq.
      change (default PUndefined (Some ?x)) with x. cbn [truthy].
      rewrite negb_involutive. by apply insert_id.
    + unfold strict_eq. by rewrite bool_decide_eq_false_2.
  - unfold handleToggleComplete. apply List.length_map.
  - intros i task Hi Hid. unfold handleToggleComplete.
    change (List.map ?f ?l) with (f <$> l). rewrite list_lookup_fmap, Hi. cbn.
    unfold strict_eq. by rewrite bool_decide_eq_false_2.
Qed.

Lemma Array_sort_ext {A} (f g : A -> A -> outcome number) (l : list A) :
  (forall x y, f x y = g x y) -> Array_sort f l = Array_sort g l.
Proof.
  intros Hfg.
  assert (Hinsert : forall x r, sort_insert f x r = sort_insert g x r).
  { intros x r. induction r as [|y r IH]; [done|]. cbn [sort_insert].
    by rewrite Hfg, IH. }
  induction l as [|x r IH]; [done|]. cbn [Array_sort]. rewrite IH.
  destruct (Array_sort g r); [apply Hinsert|done].
Qed.

Lemma neg_sub (a b : number) : neg (sub a b) = sub b a.
Proof. destruct a, b; try done. cbn. f_equal. lia. Qed.

(** X24: The component sorts the other way round: by creation date and by
    priority its ascending order is the descending order of [sortTasks] and
    the reverse, on every array.  By progress the two agree when [completed]
    is a boolean in every record, and a key that is none of the four leaves
    the order alone in both. *)
Theorem TaskManager_sortTasks_opposite (ts : list obj) (sortBy sortOrder opposite : string) :
  String.eqb opposite ASC = negb (String.eqb sortOrder ASC) ->
  (sortBy = SORT_CREATED \/ sortBy = SORT_PRIORITY ->
     TaskManager_sortTasks sortBy sortOrder ts = sortTasks (VArr ts) sortBy opposite)
  /\ (Forall (fun task => exists b, get task "completed" = PBool b) ts ->
      TaskManager_sortTasks SORT_PROGRESS sortOrder ts
      = sortTasks (VArr ts) SORT_PROGRESS sortOrder)
  /\ (sortBy ∉ [SORT_CREATED; SORT_PRIORITY; SORT_PROGRESS; SORT_TITLE] ->
      TaskManager_sortTasks sortBy sortOrder ts = Ok ts).
Proof.
  intros Hopposite. split; [|split].
  - intros Hkey. unfold TaskManager_sortTasks. cbn [sortTasks]. apply Array_sort_ext.
    intros a b. unfold TaskManager_compare, compareTasks.
    change (String.eqb opposite "asc") with (String.eqb opposite ASC). rewrite Hopposite.
    change (String.eqb sortOrder "asc") with (String.eqb sortOrder ASC).
    destruct Hkey as [-> | ->]; cbn;
      destruct (String.eqb sortOrder ASC); cbn; by rewrite neg_sub.
  - intros Hbool. unfold TaskManager_sortTasks. cbn [sortTasks].
    rewrite (Array_sort_total (compareTasks SORT_PROGRESS sortOrder)
               (comparison SORT_PROGRESS sortOrder))
      by (intros a b; by apply compareTasks_total).
    apply Array_sort_pure. intros a b Ha Hb. rewrite Forall_forall in Hbool.
    destruct (Hbool a Ha) as [ba Hba], (Hbool b Hb) as [bb Hbb].
    unfold TaskManager_compare, comparison, compareTasks. cbn. rewrite Hba, Hbb.
    change (String.eqb sortOrder "asc") with (String.eqb sortOrder ASC).
    destruct ba, bb, (String.eqb sortOrder ASC); by eexists.
  - intros Hkey. rewrite !not_elem_of_cons in Hkey.
    destruct Hkey as (H1%String.eqb_neq & H2%String.eqb_neq & H3%String.eqb_neq
                      & H4%String.eqb_neq & _).
    unfold TaskManager_sortTasks.
    rewrite <- (stable_sort_no_order (fun _ _ : obj => 0%Z) ts) at 2 by done.
    apply Array_sort_total. intros a b. unfold TaskManager_compare.
    change "priority" with SORT_PRIORITY. change "progress" with SORT_PROGRESS.
    change "created" with SORT_CREATED. change "title" with SORT_TITLE.
    rewrite H1, H2, H3, H4. cbn. destruct (String.eqb sortOrder "asc"); by eexists.
Qed.

(** ** JSON: what parsing yields *)






Lemma without_undefined_all (ts : list obj) :
  Forall serializable ts -> without_undefined <$> ts = ts.
Proof.
  induction 1 as [|o ts Ho _ IH]; [done|].
  cbn [fmap list_fmap]. f_equal; [by apply without_undefined_id|done].
Qed.



(** ** The store: what each function touches *)

Lemma saveTasks_other_keys (tasks : value) (store : storage) (key : string) :
  key <> STORAGE_KEY -> (saveTasks tasks store).2 !! key = store !! key.
Proof.
  intros Hkey. unfold saveTasks, setItem.
  destruct (negb (isArray tasks)); [done|].
  match goal with
  | |- context [setItem_accepts ?a ?b ?c] => destruct (setItem_accepts a b c)
  end; cbn [snd]; [by rewrite lookup_insert_ne|done].
Qed.

Lemma saveTasks_accepted (tasks : value) (store : storage) :
  (saveTasks tasks store).1 = true <->
  exists ts, tasks = VArr ts
             /\ setItem_accepts store STORAGE_KEY (SerializeJSONArray ts) = true.
Proof.
  unfold saveTasks, setItem.
  destruct tasks as [p|o|ts]; cbn [isArray negb fst JSON_stringify].
  - split; [done|]. by intros (ts & [=] & _).
  - split; [done|]. by intros (ts & [=] & _).
  - destruct (setItem_accepts store STORAGE_KEY (SerializeJSONArray ts)) eqn:Haccepts;
      cbn [fst].
    + split; [intros _; by exists ts|done].
    + split; [done|]. intros (ts' & [= <-] & Hts'). congruence.
Qed.

Lemma saveTasks_stored (tasks : value) (store : storage) :
  (saveTasks tasks store).1 = true ->
  (saveTasks tasks store).2 !! STORAGE_KEY = JSON_stringify tasks.
Proof.
  unfold saveTasks, setItem.
  destruct tasks as [p|o|ts]; cbn [isArray negb fst snd JSON_stringify]; try done.
  destruct (setItem_accepts store STORAGE_KEY (SerializeJSONArray ts)); cbn [fst snd];
    [|done].
  intros _. by rewrite lookup_insert_eq.
Qed.

Lemma saveTasks_refused (tasks : value) (store : storage) :
  (saveTasks tasks store).1 = false -> (saveTasks tasks store).2 = store.
Proof.
  unfold saveTasks, setItem.
  destruct (negb (isArray tasks)); [done|].
  match goal with
  | |- context [setItem_accepts ?a ?b ?c] => destruct (setItem_accepts a b c)
  end; cbn [fst snd]; done.
Qed.

(** X25: [saveTasks] writes the key of the tasks and no other.  It reports
    success exactly when it was given an array and the store took the text of
    it; when it reports failure the store is as it was, so that what was saved
    before still loads. *)
Theorem saveTasks_frame (tasks : value) (store : storage) :
  let saved := (saveTasks tasks store).1 in
  let store' := (saveTasks tasks store).2 in
  (forall key, key <> STORAGE_KEY -> store' !! key = store !! key)
  /\ (saved = true <->
      exists ts, tasks = VArr ts
                 /\ setItem_accepts store STORAGE_KEY (SerializeJSONArray ts) = true)
  /\ (saved = true -> store' !! STORAGE_KEY = JSON_stringify tasks)
  /\ (saved = false -> store' = store /\ loadTasks store' = loadTasks store).
Proof.
  cbv zeta.
  split; [intros key; apply saveTasks_other_keys|].
  split; [apply saveTasks_accepted|].
  split; [apply saveTasks_stored|].
  intros Hrefused%saveTasks_refused. by rewrite Hrefused.
Qed.



(** After [clearTasks] there is nothing to load, also right after a save,
    and every other key of the store is as it was. *)
Theorem clearTasks_clears (store : storage) :
  let store' := (clearTasks store).2 in
  (clearTasks store).1 = true
  /\ store' !! STORAGE_KEY = None
  /\ loadTasks store' = []
  /\ (forall key, key <> STORAGE_KEY -> store' !! key = store !! key)
  /\ (forall tasks, loadTasks (clearTasks (saveTasks tasks store).2).2 = []).
Proof.
  cbv zeta. unfold clearTasks, removeItem, loadTasks, getItem. cbn [fst snd].
  rewrite lookup_delete_eq.
  split; [done|]. split; [done|]. split; [done|].
  split; [intros key Hkey; by rewrite lookup_delete_ne|].
  intros tasks. by rewrite lookup_delete_eq.
Qed.

Lemma isLocalStorageAvailable_other_keys (store : storage) (key : string) :
  key <> testKey -> (isLocalStorageAvailable store).2 !! key = store !! key.
Proof.
  intros Hkey. unfold isLocalStorageAvailable, setItem, removeItem.
  destruct (setItem_accepts store testKey "test"); cbn [snd]; [|done].
  rewrite lookup_delete_ne by done. by rewrite lookup_insert_ne.
Qed.

Lemma isLocalStorageAvailable_answer (store : storage) :
  (isLocalStorageAvailable store).1 = setItem_accepts store testKey "test".
Proof.
  unfold isLocalStorageAvailable, setItem.
  by destruct (setItem_accepts store testKey "test").
Qed.

Lemma isLocalStorageAvailable_loadTasks (store : storage) :
  loadTasks (isLocalStorageAvailable store).2 = loadTasks store.
Proof. unfold loadTasks, getItem. by rewrite isLocalStorageAvailable_other_keys. Qed.

(** X27: [isLocalStorageAvailable] answers whether the store takes a write,
    and leaves every key but its test key as it was: the saved tasks load as
    before.  When it answers yes the test key is gone, whatever it held. *)
Theorem isLocalStorageAvailable_frame (store : storage) :
  let available := (isLocalStorageAvailable store).1 in
  let store' := (isLocalStorageAvailable store).2 in
  available = setItem_accepts store testKey "test"
  /\ (forall key, key <> testKey -> store' !! key = store !! key)
  /\ loadTasks store' = loadTasks store
  /\ (available = true -> store' !! testKey = None)
  /\ (available = false -> store' = store).
Proof.
  cbv zeta.
  split; [apply isLocalStorageAvailable_answer|].
  split; [intros key; apply isLocalStorageAvailable_other_keys|].
  split; [apply isLocalStorageAvailable_loadTasks|].
  unfold isLocalStorageAvailable, setItem, removeItem.
  destruct (setItem_accepts store testKey "test"); cbn [fst snd]; [|done].
  split; [intros _; apply lookup_delete_eq|done].
Qed.


(** ** The effects: what survives a reload *)

Lemma autoSave_effect_run (h : hook) (store : storage) :
  loading h = false ->
  autoSave_effect true h store
  = ({| state := {| tasks := tasks (state h); error := None |}; loading := false |},
     (saveTasks (VArr (tasks (state h))) store).2).
Proof.
  intros Hloading. unfold autoSave_effect. rewrite Hloading. cbn [andb negb].
  assert ((0 <=? length (tasks (state h))) = true) as -> by by apply Nat.leb_le, Nat.le_0_l.
  by destruct (saveTasks (VArr (tasks (state h))) store).
Qed.

(** X29: The saving effect does nothing while the hook is loading or when
    [autoSave] is off, so that the empty collection of the first render is
    never written over what is stored.  Otherwise it saves the collection and
    clears the error flag, also when the store refuses the write; the
    collection itself is never changed. *)
Theorem autoSave_effect_saves (autoSave : bool) (h : hook) (store : storage) :
  let h' := (autoSave_effect autoSave h store).1 in
  let store' := (autoSave_effect autoSave h store).2 in
  tasks (state h') = tasks (state h)
  /\ loading h' = loading h
  /\ (forall key, key <> STORAGE_KEY -> store' !! key = store !! key)
  /\ (autoSave = false \/ loading h = true -> h' = h /\ store' = store)
  /\ (autoSave = true -> loading h = false ->
      error (state h') = None
      /\ store' = (saveTasks (VArr (tasks (state h))) store).2).
Proof.
  cbv zeta. destruct autoSave, (loading h) eqn:Hloading.
  - unfold autoSave_effect. rewrite Hloading. cbn [andb negb fst snd].
    repeat split; done.
  - rewrite autoSave_effect_run by done. cbn [fst snd state tasks loading error].
    split; [done|]. split; [done|]. split; [intros key; apply saveTasks_other_keys|].
    split; [by intros [?|?]|done].
  - unfold autoSave_effect. cbn [andb fst snd]. repeat split; done.
  - unfold autoSave_effect. cbn [andb fst snd]. repeat split; done.
Qed.

(** X30: What the saving effect wrote is what the loading effect of the next
    mount reads: when the store took the write, a fresh mount starts from the
    same collection, not loading and with no error, and the save that follows
    that mount does not change what is loaded. *)
Theorem mount_effect_reloads (h : hook) (store : storage) :
  loading h = false ->
  Forall serializable (tasks (state h)) ->
  (saveTasks (VArr (tasks (state h))) store).1 = true ->
  let store' := (autoSave_effect true h store).2 in
  let h' := mount_effect store' initial in
  h' = {| state := {| tasks := tasks (state h); error := None |}; loading := false |}
  /\ loadTasks (autoSave_effect true h' store').2 = loadTasks store'.
Proof.
  intros Hloading Hts Hsaved. cbv zeta.
  rewrite (autoSave_effect_run h) by done. cbn [snd].
  assert (Hload : loadTasks (saveTasks (VArr (tasks (state h))) store).2
                  = tasks (state h)).
  { rewrite loadTasks_saveTasks_any by done. by apply without_undefined_all. }
  unfold mount_effect. rewrite Hload. split; [done|].
  rewrite autoSave_effect_run by done. cbn [snd state tasks].
  destruct (saveTasks (VArr (tasks (state h)))
              (saveTasks (VArr (tasks (state h))) store).2).1 eqn:Hagain.
  - rewrite loadTasks_saveTasks_any by done. by rewrite without_undefined_all.
  - by rewrite saveTasks_refused.
Qed.

End Platform.

(** * The properties on the sample data *)

(** ** The sample collation is consistent *)

Lemma sample_localeCompare_flip (s t : string) :
  (0 < sample_localeCompare s t <-> sample_localeCompare t s < 0)%Z.
Proof.
  revert t. induction s as [|x s IH]; intros [|y t]; simpl; try lia.
  destruct (Nat.ltb_spec (nat_of_ascii x) (nat_of_ascii y)),
    (Nat.ltb_spec (nat_of_ascii y) (nat_of_ascii x)); try lia.
  apply IH.
Qed.

Lemma sample_localeCompare_trans (s t u : string) :
  (sample_localeCompare s t <= 0 -> sample_localeCompare t u <= 0 ->
   sample_localeCompare s u <= 0)%Z.
Proof.
  revert t u. induction s as [|x s IH]; intros [|y t] [|z u]; simpl; try lia.
  destruct (Nat.ltb_spec (nat_of_ascii x) (nat_of_ascii y)),
    (Nat.ltb_spec (nat_of_ascii y) (nat_of_ascii x)),
    (Nat.ltb_spec (nat_of_ascii y) (nat_of_ascii z)),
    (Nat.ltb_spec (nat_of_ascii z) (nat_of_ascii y)),
    (Nat.ltb_spec (nat_of_ascii x) (nat_of_ascii z)),
    (Nat.ltb_spec (nat_of_ascii z) (nat_of_ascii x)); try lia.
  apply IH.
Qed.

(** ** validateTask *)

Lemma validateTask_title_too_long_witness :
  padded_task !! "title" = Some (PStr padded_title)
  /\ (In title_too_long (errors (validateTask sample_Date_parse (VObj padded_task)))
      <-> 100 < String.length padded_title).
Proof.
  split; [reflexivity|].
  apply (validateTask_title_too_long sample_Date_parse padded_task padded_title).
  reflexivity.
Defined.

(** C4 as stated fails: the trimmed length of [padded_title] is within the
    bound, and the title-too-long error is reported all the same. *)
Lemma validateTask_title_too_long_counterexample :
  String.length (trim padded_title) = 100
  /\ In title_too_long (errors (validateTask sample_Date_parse (VObj padded_task))).
Proof.
  split; [reflexivity|].
  apply validateTask_errors. right. left. split; reflexivity.
Qed.

Lemma validateTask_completed_absent_witness :
  draft_without_completed !! "completed" = None
  /\ In completed_not_boolean
       (errors (validateTask sample_Date_parse (VObj draft_without_completed)))
  /\ errors (validateTask sample_Date_parse (VObj draft_without_completed)) <> []
  /\ isValid (validateTask sample_Date_parse (VObj draft_without_completed)) = false.
Proof.
  split; [reflexivity|].
  apply (validateTask_completed_absent sample_Date_parse draft_without_completed).
  reflexivity.
Defined.

(** ** The manager *)

Lemma not_found_reports_success_witness :
  (forall task, task ∈ tasks one_task ->
     strict_eq (get task "id") (PStr "non-existent") = false)
  /\ updateTask sample_Date_parse (PStr "non-existent")
       (UObj {[ "title" := PStr "Updated" ]}) one_task
     = (Success None, {| tasks := [task_1]; error := None |})
  /\ updateTask_render sample_Date_parse (PStr "non-existent")
       (UObj {[ "title" := PStr "Updated" ]}) one_task
     = Some "Task not found"
  /\ deleteTask (PStr "non-existent") one_task
     = (Success None, {| tasks := [task_1]; error := None |})
  /\ deleteTask_render (PStr "non-existent") one_task = Some "Task not found".
Proof.
  assert (Habsent : forall task, task ∈ tasks one_task ->
            strict_eq (get task "id") (PStr "non-existent") = false).
  { intros task ->%list_elem_of_singleton. reflexivity. }
  split; [exact Habsent|].
  exact (not_found_reports_success sample_Date_parse (PStr "non-existent")
           (UObj {[ "title" := PStr "Updated" ]}) one_task Habsent).
Defined.

Lemma updateTask_title_patch :
  updateTask sample_Date_parse (PStr "2") (UObj title_patch) four_tasks
  = (Success (Some patched_task_2), four_tasks_patched).
Proof. vm_compute. reflexivity. Qed.

Lemma title_patch_valid :
  isValid (validateTask sample_Date_parse
             (VObj (spread task_2 (own_properties (UObj title_patch))))) = true.
Proof. vm_compute. reflexivity. Qed.



(** C1: [toggleTask] reports success and changes nothing.  Whatever the id
    and the collection, the collection is the same afterwards; on the record
    of the test suite, [completed] is still false after the toggle, where
    the component's [handleToggleComplete] makes it true. *)
Theorem toggleTask_does_not_flip :
  (forall Date_parse taskId m, tasks (toggleTask Date_parse taskId m).2 = tasks m)
  /\ toggleTask sample_Date_parse (PStr "1") one_task
     = (Success (Some task_1), {| tasks := [task_1]; error := None |})
  /\ get task_1 "completed" = PBool false
  /\ handleToggleComplete (PStr "1") [task_1] = [<["completed" := PBool true]> task_1].
Proof.
  split; [apply toggleTask_collection_unchanged|].
  repeat split; vm_compute; reflexivity.
Qed.

(** C2: the record [addTask] creates from [draft_with_id] has the id of the
    draft, not the fresh one, and the collection then holds two records with
    that id; [createdAt] and [completed] are the manager's. *)
Theorem addTask_takes_id_from_draft :
  let created :=
    <["createdAt" := PStr "2024-01-02T00:00:00.000Z"]>
      (<["completed" := PBool false]> draft_with_id) in
  addTask sample_Date_parse "mock-uuid-123" "2024-01-02T00:00:00.000Z" draft_with_id one_task
    = (Success (Some created), {| tasks := [task_1; created]; error := None |})
  /\ get created "id" = PStr "1"
  /\ get created "id" <> PStr "mock-uuid-123"
  /\ get task_1 "id" = PStr "1"
  /\ get created "createdAt" = PStr "2024-01-02T00:00:00.000Z"
  /\ get created "completed" = PBool false.
Proof. cbv zeta. repeat split; try discriminate; vm_compute; reflexivity. Qed.

(** ** filterTasks *)

(** C5 as stated fails: a search over an array that holds a record without
    a title throws. *)
Lemma filterTasks_safe_counterexample :
  filterTasks (VArr [task_1; untitled_task]) (PStr "milk")
  = Throw "TypeError: Cannot read properties of undefined".
Proof. vm_compute. reflexivity. Qed.

Lemma mockTasks_searchable : Forall (fun task => searchable task = true) mockTasks.
Proof. repeat constructor. Qed.

Lemma filterTasks_safe_witness :
  (forall ts, VArr mockTasks = VArr ts -> truthy (PStr "high") = true ->
     typeof (PStr "high") = "string" /\ Forall (fun task => searchable task = true) ts)
  /\ exists v,
       filterTasks (VArr mockTasks) (PStr "high") = Ok v
       /\ (truthy (PStr "high") = false \/ isArray (VArr mockTasks) = false ->
           v = VArr mockTasks)
       /\ (forall ts, VArr mockTasks = VArr ts ->
             exists kept, v = VArr kept /\ sublist kept ts).
Proof.
  assert (Hwf : forall ts, VArr mockTasks = VArr ts -> truthy (PStr "high") = true ->
            typeof (PStr "high") = "string"
            /\ Forall (fun task => searchable task = true) ts).
  { intros ts [= <-] _. split; [reflexivity|exact mockTasks_searchable]. }
  split; [exact Hwf|].
  exact (filterTasks_safe (VArr mockTasks) (PStr "high") Hwf).
Defined.

(** The search of the sample records for the two with a high priority in
    their title, and the pass-through of an empty search term. *)
Example filterTasks_high :
  filterTasks (VArr mockTasks) (PStr " High ") = Ok (VArr [task_1; task_4])
  /\ filterTasks (VArr mockTasks) (PStr EmptyString) = Ok (VArr mockTasks)
  /\ filterTasks (VArr mockTasks) (PStr "zzz-no-match") = Ok (VArr [])
  /\ filterTasks (VPrim PNull) (PStr "high") = Ok (VPrim PNull).
Proof. repeat split; vm_compute; reflexivity. Qed.

(** ** getTaskStats *)

Example getTaskStats_mockTasks :
  getTaskStats (VArr mockTasks)
  = {| total := 4; completed := 2; pending := 2;
       highPriority := 2; mediumPriority := 1; lowPriority := 1;
       completionRate := 50%float |}.
Proof. vm_compute. reflexivity. Qed.

(** ** sortTasks *)

Lemma mockTasks_sortable (sortBy : string) :
  Forall (fun task => sortable sample_Date_parse sortBy task = true) mockTasks.
Proof.
  unfold sortable.
  destruct (String.eqb sortBy SORT_CREATED); [repeat constructor|].
  destruct (String.eqb sortBy SORT_PRIORITY); [repeat constructor|].
  destruct (String.eqb sortBy SORT_TITLE); repeat constructor.
Qed.

Lemma sortTasks_stable_witness :
  Forall (fun task => sortable sample_Date_parse SORT_PRIORITY task = true) mockTasks
  /\ exists sorted,
       sortTasks sample_Date_parse sample_localeCompare (VArr mockTasks) SORT_PRIORITY DESC
         = Ok sorted
       /\ Permutation sorted mockTasks
       /\ StronglySorted
            (fun a b =>
               comparison sample_Date_parse sample_localeCompare SORT_PRIORITY DESC a b <= 0)%Z
            sorted.
Proof.
  split; [exact (mockTasks_sortable SORT_PRIORITY)|].
  destruct (sortTasks_stable sample_Date_parse sample_localeCompare
              sample_localeCompare_flip sample_localeCompare_trans
              mockTasks SORT_PRIORITY DESC (mockTasks_sortable SORT_PRIORITY))
    as (sorted & Hsort & Hperm & Hsorted & _).
  exists sorted. split; [exact Hsort|]. split; [exact Hperm|exact Hsorted].
Defined.

(** The sorts of the test suite: by priority the two High records come
    first in their input order, then Medium, then Low; by date; by title;
    by progress, where ascending puts the incomplete records first; an
    unknown key leaves the order alone. *)
Example sortTasks_mockTasks :
  sortTasks sample_Date_parse sample_localeCompare (VArr mockTasks) SORT_PRIORITY DESC
    = Ok [task_1; task_4; task_2; task_3]
  /\ sortTasks sample_Date_parse sample_localeCompare (VArr mockTasks) SORT_PRIORITY ASC
    = Ok [task_3; task_2; task_1; task_4]
  /\ sortTasks sample_Date_parse sample_localeCompare (VArr mockTasks) SORT_CREATED DESC
    = Ok [task_4; task_3; task_2; task_1]
  /\ sortTasks sample_Date_parse sample_localeCompare (VArr mockTasks) SORT_TITLE ASC
    = Ok [task_4; task_1; task_3; task_2]
  /\ sortTasks sample_Date_parse sample_localeCompare (VArr mockTasks) SORT_PROGRESS ASC
    = Ok [task_1; task_3; task_2; task_4]
  /\ sortTasks sample_Date_parse sample_localeCompare (VArr mockTasks) "unknown" ASC
    = Ok mockTasks
  /\ sortTasks sample_Date_parse sample_localeCompare (VPrim PNull) SORT_TITLE ASC = Ok [].
Proof. repeat split; vm_compute; reflexivity. Qed.

(** ** saveTasks and loadTasks *)

Lemma mockTasks_serializable : Forall serializable mockTasks.
Proof.
  unfold mockTasks.
  repeat (apply List.Forall_cons; [apply (bool_decide_unpack _); vm_compute; exact I|]).
  apply List.Forall_nil.
Qed.

Lemma saveTasks_mockTasks : (saveTasks sample_accepts (VArr mockTasks) ∅).1 = true.
Proof. reflexivity. Qed.

Lemma loadTasks_saveTasks_witness :
  Forall serializable mockTasks
  /\ (saveTasks sample_accepts (VArr mockTasks) ∅).1 = true
  /\ loadTasks (saveTasks sample_accepts (VArr mockTasks) ∅).2 = mockTasks.
Proof.
  split; [exact mockTasks_serializable|]. split; [exact saveTasks_mockTasks|].
  exact (loadTasks_saveTasks sample_accepts mockTasks ∅
           mockTasks_serializable saveTasks_mockTasks).
Defined.

(** What the store holds after a save, and the fallbacks of [loadTasks]:
    the empty array for an absent key, for text that is not JSON, and for
    JSON that is not an array. *)
Example loadTasks_fallbacks :
  loadTasks ∅ = []
  /\ loadTasks {[ STORAGE_KEY := "invalid-json" ]} = []
  /\ loadTasks {[ STORAGE_KEY := "{}" ]} = []
  /\ loadTasks {[ STORAGE_KEY := "[]" ]} = []
  /\ (saveTasks sample_accepts (VArr []) ∅).2 !! STORAGE_KEY = Some "[]"
  /\ saveTasks sample_accepts (VObj task_1) ∅ = (false, ∅).
Proof. repeat split; vm_compute; reflexivity. Qed.

(** ** The further properties on the sample data *)

Lemma validateTask_rejects_non_records_witness :
  (forall o, VPrim PNull <> VObj o)
  /\ isValid (validateTask sample_Date_parse (VPrim PNull)) = false
  /\ errors (validateTask sample_Date_parse (VPrim PNull)) = [task_required].
Proof.
  assert (Hv : forall o, VPrim PNull <> VObj o) by (intros o; discriminate).
  split; [exact Hv|].
  exact (validateTask_rejects_non_records sample_Date_parse (VPrim PNull) Hv).
Defined.

Lemma sortTasks_returns_witness :
  SORT_PRIORITY <> SORT_TITLE
  /\ exists sorted,
       sortTasks sample_Date_parse sample_localeCompare (VArr mockTasks) SORT_PRIORITY DESC
         = Ok sorted
       /\ Permutation sorted mockTasks.
Proof.
  assert (Hkey : SORT_PRIORITY <> SORT_TITLE) by discriminate.
  split; [exact Hkey|].
  destruct (sortTasks_returns sample_Date_parse sample_localeCompare (VArr mockTasks)
              SORT_PRIORITY DESC Hkey) as (sorted & Hsorted & _ & Hperm).
  exists sorted. split; [exact Hsorted|]. apply Hperm. reflexivity.
Defined.

Lemma unknown_key : "unknown" ∉ [SORT_CREATED; SORT_PRIORITY; SORT_PROGRESS; SORT_TITLE].
Proof.
  rewrite !not_elem_of_cons. repeat split; try discriminate. apply not_elem_of_nil.
Qed.

Lemma sortTasks_unknown_key_witness :
  ("unknown" ∉ [SORT_CREATED; SORT_PRIORITY; SORT_PROGRESS; SORT_TITLE])
  /\ sortTasks sample_Date_parse sample_localeCompare (VArr mockTasks) "unknown" DESC
     = Ok mockTasks.
Proof.
  split; [exact unknown_key|].
  exact (sortTasks_unknown_key sample_Date_parse sample_localeCompare mockTasks
           "unknown" DESC unknown_key).
Defined.

Lemma untitled_task_among :
  Exists (fun task => typeof (get task "title") <> "string") [task_1; untitled_task].
Proof. apply Exists_cons_tl, Exists_cons_hd. discriminate. Qed.

Lemma sortTasks_title_throws_witness :
  2 <= length [task_1; untitled_task]
  /\ Exists (fun task => typeof (get task "title") <> "string") [task_1; untitled_task]
  /\ exists message,
       sortTasks sample_Date_parse sample_localeCompare (VArr [task_1; untitled_task])
         SORT_TITLE ASC = Throw message.
Proof.
  split; [apply le_n|]. split; [exact untitled_task_among|].
  exact (proj1 (sortTasks_title_throws sample_Date_parse sample_localeCompare
                  [task_1; untitled_task] ASC (le_n 2) untitled_task_among)).
Defined.

Lemma filterTasks_finds_witness :
  "high" <> EmptyString
  /\ Forall (fun task => searchable task = true) mockTasks
  /\ exists kept,
       filterTasks (VArr mockTasks) (PStr "high") = Ok (VArr kept)
       /\ sublist kept mockTasks.
Proof.
  assert (Hterm : "high" <> EmptyString) by discriminate.
  split; [exact Hterm|]. split; [exact mockTasks_searchable|].
  destruct (filterTasks_finds mockTasks "high" Hterm mockTasks_searchable)
    as (kept & Hkept & Hsub & _).
  exists kept. split; [exact Hkept|exact Hsub].
Defined.

Lemma filterTasks_blank_term_witness :
  trim "   " = EmptyString
  /\ Forall (fun task => searchable task = true) mockTasks
  /\ filterTasks (VArr mockTasks) (PStr "   ") = Ok (VArr mockTasks).
Proof.
  split; [reflexivity|]. split; [exact mockTasks_searchable|].
  exact (filterTasks_blank_term mockTasks "   " eq_refl mockTasks_searchable).
Defined.

Lemma filterTasks_idempotent_witness :
  Forall (fun task => searchable task = true) mockTasks
  /\ exists kept,
       filterTasks (VArr mockTasks) (PStr "high") = Ok (VArr kept)
       /\ filterTasks (VArr kept) (PStr "high") = Ok (VArr kept).
Proof.
  split; [exact mockTasks_searchable|].
  exact (filterTasks_idempotent mockTasks "high" mockTasks_searchable).
Defined.

Lemma filterTasks_sortTasks_commute_witness :
  Forall (fun task => searchable task = true) mockTasks
  /\ Forall (fun task => sortable sample_Date_parse SORT_PRIORITY task = true) mockTasks
  /\ exists kept sorted result,
       filterTasks (VArr mockTasks) (PStr "high") = Ok (VArr kept)
       /\ sortTasks sample_Date_parse sample_localeCompare (VArr mockTasks) SORT_PRIORITY DESC
          = Ok sorted
       /\ sortTasks sample_Date_parse sample_localeCompare (VArr kept) SORT_PRIORITY DESC
          = Ok result
       /\ filterTasks (VArr sorted) (PStr "high") = Ok (VArr result).
Proof.
  split; [exact mockTasks_searchable|]. split; [exact (mockTasks_sortable SORT_PRIORITY)|].
  exact (filterTasks_sortTasks_commute sample_Date_parse sample_localeCompare
           sample_localeCompare_flip sample_localeCompare_trans
           mockTasks "high" SORT_PRIORITY DESC
           mockTasks_searchable (mockTasks_sortable SORT_PRIORITY)).
Defined.

Lemma getTaskStats_sortTasks_witness :
  sortTasks sample_Date_parse sample_localeCompare (VArr mockTasks) SORT_PRIORITY DESC
    = Ok [task_1; task_4; task_2; task_3]
  /\ getTaskStats (VArr [task_1; task_4; task_2; task_3]) = getTaskStats (VArr mockTasks).
Proof.
  split; [exact (proj1 sortTasks_mockTasks)|].
  exact (getTaskStats_sortTasks sample_Date_parse sample_localeCompare mockTasks
           [task_1; task_4; task_2; task_3] SORT_PRIORITY DESC (proj1 sortTasks_mockTasks)).
Defined.

(** ** The manager: lookups after an operation *)

Lemma addTask_draft_without_completed :
  addTask sample_Date_parse "mock-uuid-123" "2024-01-02T00:00:00.000Z"
    draft_without_completed one_task
  = (Success (Some created_task), two_tasks).
Proof. vm_compute. reflexivity. Qed.

Lemma getTaskById_addTask_witness :
  addTask sample_Date_parse "mock-uuid-123" "2024-01-02T00:00:00.000Z"
    draft_without_completed one_task
    = (Success (Some created_task), two_tasks)
  /\ getTaskById (PStr "mock-uuid-123") two_tasks = Some created_task.
Proof.
  split; [exact addTask_draft_without_completed|].
  apply (getTaskById_addTask sample_Date_parse "mock-uuid-123" "2024-01-02T00:00:00.000Z"
           draft_without_completed one_task two_tasks created_task
           addTask_draft_without_completed); reflexivity.
Defined.

Lemma task_1_found : getTaskById (PStr "1") four_tasks <> None.
Proof. discriminate. Qed.

Lemma deleteTask_removes_witness :
  getTaskById (PStr "1") four_tasks <> None
  /\ exists m',
       deleteTask (PStr "1") four_tasks = (Success None, m')
       /\ error m' = None
       /\ getTaskById (PStr "1") m' = None
       /\ length (tasks m') < length (tasks four_tasks).
Proof.
  split; [exact task_1_found|].
  destruct (deleteTask_removes (PStr "1") four_tasks task_1_found)
    as (m' & Hdelete & Herror & _ & _ & Hlength & Hgone & _).
  exists m'. split; [exact Hdelete|]. split; [exact Herror|]. split; [exact Hgone|exact Hlength].
Defined.

Lemma getTaskById_updateTask_witness :
  getTaskById (PStr "2") four_tasks = Some task_2
  /\ isValid (validateTask sample_Date_parse
                (VObj (spread task_2 (own_properties (UObj title_patch))))) = true
  /\ own_properties (UObj title_patch) !! "id" = None
  /\ getTaskById (PStr "2")
       (updateTask sample_Date_parse (PStr "2") (UObj title_patch) four_tasks).2
     = Some (spread task_2 (own_properties (UObj title_patch)))
  /\ forall other, other <> PStr "2" ->
       getTaskById other
         (updateTask sample_Date_parse (PStr "2") (UObj title_patch) four_tasks).2
       = getTaskById other four_tasks.
Proof.
  split; [reflexivity|]. split; [exact title_patch_valid|]. split; [reflexivity|].
  exact (getTaskById_updateTask sample_Date_parse (PStr "2") (UObj title_patch)
           four_tasks task_2 eq_refl title_patch_valid eq_refl).
Defined.




Lemma clock_parses : sample_Date_parse "2024-01-02T00:00:00.000Z" <> None.
Proof. discriminate. Qed.

Lemma addTask_accepts_witness :
  sample_Date_parse "2024-01-02T00:00:00.000Z" <> None
  /\ forall completed createdAt : prim,
       addTask sample_Date_parse "mock-uuid-123" "2024-01-02T00:00:00.000Z"
         (<["completed" := completed]> (<["createdAt" := createdAt]> draft_without_completed))
         one_task
       = addTask sample_Date_parse "mock-uuid-123" "2024-01-02T00:00:00.000Z"
           draft_without_completed one_task.
Proof.
  split; [exact clock_parses|].
  exact (proj2 (proj2 (addTask_accepts sample_Date_parse "mock-uuid-123"
                         "2024-01-02T00:00:00.000Z" draft_without_completed one_task
                         clock_parses))).
Defined.

(** ** The component *)

Lemma mockTasks_completed_boolean (id : prim) :
  Forall (fun task => get task "id" = id -> exists b, task !! "completed" = Some (PBool b))
    mockTasks.
Proof.
  repeat (apply List.Forall_cons; [intros _; by eexists|]). apply List.Forall_nil.
Qed.

Lemma handleToggleComplete_involutive_witness :
  Forall (fun task => get task "id" = PStr "1" ->
                      exists b, task !! "completed" = Some (PBool b)) mockTasks
  /\ handleToggleComplete (PStr "1") (handleToggleComplete (PStr "1") mockTasks) = mockTasks.
Proof.
  split; [exact (mockTasks_completed_boolean (PStr "1"))|].
  exact (proj1 (handleToggleComplete_involutive (PStr "1") mockTasks
                  (mockTasks_completed_boolean (PStr "1")))).
Defined.

Lemma TaskManager_sortTasks_opposite_witness :
  String.eqb DESC ASC = negb (String.eqb ASC ASC)
  /\ TaskManager_sortTasks sample_Date_parse sample_localeCompare SORT_CREATED ASC mockTasks
     = sortTasks sample_Date_parse sample_localeCompare (VArr mockTasks) SORT_CREATED DESC.
Proof.
  split; [reflexivity|].
  apply (TaskManager_sortTasks_opposite sample_Date_parse sample_localeCompare mockTasks
           SORT_CREATED ASC DESC eq_refl).
  left. reflexivity.
Defined.

(** ** The store and the effects *)


Lemma mount_effect_reloads_witness :
  loading loaded_hook = false
  /\ Forall serializable (tasks (state loaded_hook))
  /\ (saveTasks sample_accepts (VArr (tasks (state loaded_hook))) ∅).1 = true
  /\ mount_effect (autoSave_effect sample_accepts true loaded_hook ∅).2 initial
     = {| state := {| tasks := mockTasks; error := None |}; loading := false |}
  /\ loadTasks
       (autoSave_effect sample_accepts true
          (mount_effect (autoSave_effect sample_accepts true loaded_hook ∅).2 initial)
          (autoSave_effect sample_accepts true loaded_hook ∅).2).2
     = loadTasks (autoSave_effect sample_accepts true loaded_hook ∅).2.
Proof.
  split; [reflexivity|]. split; [exact mockTasks_serializable|]. split; [reflexivity|].
  exact (mount_effect_reloads sample_accepts loaded_hook ∅ eq_refl
           mockTasks_serializable eq_refl).
Defined.
